(** * Reverie backend: the world grid ([maze.py]) and the agent's tick
      ([persona/persona.py]), embedded shallowly.

    Python values are modelled as follows.
    - [int] is [Z]; a [str] is [string]; [None]-or-value is [option].
    - a [list] is [list], indexed the way Python indexes it: a negative
      index counts from the end, anything else out of range raises
      [IndexError].
    - a [dict] keyed by strings is [gmap string _]; a [set] is [gset _].
    - a [float] is a [spec_float] of the Standard Library at the
      parameters of binary64, with its correctly rounded division.
    - a function that may raise returns [result]. *)

From Stdlib Require Import ZArith Lia Ascii SpecFloat.
From stdpp Require Import gmap strings list fin_maps.

Open Scope Z_scope.

(** ** Exceptions *)

Inductive PyError : Type :=
  | IndexError
  | ZeroDivisionError
  | OverflowError
  | ValueError
  | CollaboratorFailure (msg : string).

Inductive result (A : Type) : Type :=
  | Ok (a : A)
  | Raise (e : PyError).
Arguments Ok {A} a.
Arguments Raise {A} e.

(** An exception skips the rest of the block. *)
#[global] Instance result_bind : MBind result := λ A B k r,
  match r with
  | Ok a => k a
  | Raise e => Raise e
  end.
#[global] Instance result_ret : MRet result := λ A a, Ok a.

Definition is_ok {A} (r : result A) : bool :=
  match r with Ok _ => true | Raise _ => false end.

(** ** Python sequences *)

Module Py.

(** [l[i]]: the position a (possibly negative) index denotes. *)
Definition norm_index (n : nat) (i : Z) : option nat :=
  if 0 <=? i then
    (if i <? Z.of_nat n then Some (Z.to_nat i) else None)
  else
    (if - Z.of_nat n <=? i then Some (Z.to_nat (Z.of_nat n + i)) else None).

Definition getitem {A} (l : list A) (i : Z) : result A :=
  match norm_index (length l) i with
  | Some k =>
      match l !! k with
      | Some a => Ok a
      | None => Raise IndexError
      end
  | None => Raise IndexError
  end.

(** [range(lo, hi)] *)
Definition range (lo hi : Z) : list Z :=
  (λ k : nat, lo + Z.of_nat k) <$> seq 0 (Z.to_nat (hi - lo)).

(** [d.get(k, "")] *)
Definition dict_get (d : gmap string string) (k : string) : string :=
  default "" (d !! k).

(** truth value of a [str] *)
Definition truthy (s : string) : bool :=
  match s with
  | EmptyString => false
  | String _ _ => true
  end.

(** [float(z)] for an [int] that is its own double; in general, the
    exact value of [z] as a mantissa with exponent 0, which is what
    the division below rounds. *)
Definition float_of_int (z : Z) : spec_float :=
  match z with
  | Z0 => S754_zero false
  | Zpos p => S754_finite false p 0
  | Zneg p => S754_finite true p 0
  end.

(** [a / b] on two [int]s: the double nearest to the exact quotient
    (ties to even). *)
Definition truediv (a b : Z) : result spec_float :=
  if b =? 0 then Raise ZeroDivisionError
  else
    match SFdiv 53 1024 (float_of_int a) (float_of_int b) with
    | S754_infinity _ => Raise OverflowError
    | x => Ok x
    end.

(** The least integer not below [v * 2^e]. *)
Definition ceil_scaled (v e : Z) : Z :=
  if 0 <=? e then v * 2 ^ e else - ((- v) / 2 ^ (- e)).

(** [math.ceil(x)] *)
Definition math_ceil (x : spec_float) : result Z :=
  match x with
  | S754_zero _ => Ok 0
  | S754_finite s m e => Ok (ceil_scaled (if s then Zneg m else Zpos m) e)
  | S754_infinity _ => Raise OverflowError
  | S754_nan => Raise ValueError
  end.

(** [for a in l: s = f(s, a)], stopping at the first exception *)
Fixpoint for_each {S A} (f : S → A → result S) (s : S) (l : list A)
  : result S :=
  match l with
  | [] => Ok s
  | a :: l' => s' ← f s a; for_each f s' l'
  end.

End Py.

(** ** maze.py *)

Definition TileCoord : Type := Z * Z.

(** [Event = Tuple[str, object, object, object]]: subject, predicate,
    object, description; the last three are [None] when unset. *)
Definition Event : Type :=
  string * option string * option string * option string.

Definition subject (e : Event) : string := e.1.1.1.

Record Tile : Type := mkTile {
  world : string;
  sector : string;
  arena : string;
  game_object : string;
  spawning_location : string;
  collision : bool;
  events : gset Event
}.

Definition set_events (t : Tile) (evs : gset Event) : Tile :=
  mkTile (world t) (sector t) (arena t) (game_object t)
         (spawning_location t) (collision t) evs.

Record Maze : Type := mkMaze {
  maze_name : string;
  maze_width : Z;
  maze_height : Z;
  sq_tile_size : Z;
  tiles : list (list Tile);
  address_tiles : gmap string (gset TileCoord)
}.

(** What [Maze.__init__] reads from the files under [env_matrix]: the
    meta information, the block tables and the five layers. *)
Record MazeFiles : Type := mkMazeFiles {
  meta_maze_width : Z;
  meta_maze_height : Z;
  meta_sq_tile_size : Z;
  world_block : string;
  sector_blocks : gmap string string;
  arena_blocks : gmap string string;
  object_blocks : gmap string string;
  spawn_blocks : gmap string string;
  collision_raw : list string;
  sector_raw : list string;
  arena_raw : list string;
  object_raw : list string;
  spawn_raw : list string
}.

Definition sector_path (t : Tile) : string :=
  world t +:+ ":" +:+ sector t.
Definition arena_path (t : Tile) : string :=
  world t +:+ ":" +:+ sector t +:+ ":" +:+ arena t.
Definition object_path (t : Tile) : string :=
  world t +:+ ":" +:+ sector t +:+ ":" +:+ arena t +:+ ":" +:+ game_object t.
Definition spawn_path (t : Tile) : string :=
  "<spawn_loc>" +:+ spawning_location t.

(** [d[key]] on a [defaultdict(set)]: a key never seen is answered with
    the empty set. *)
Definition index_lookup (idx : gmap string (gset TileCoord)) (key : string)
    : gset TileCoord :=
  default ∅ (idx !! key).

(** [self.address_tiles[key].add(c)] *)
Definition index_add (key : string) (c : TileCoord)
    (idx : gmap string (gset TileCoord)) : gmap string (gset TileCoord) :=
  <[key := index_lookup idx key ∪ {[c]}]> idx.

Definition index_if (cond : bool) (key : string) (c : TileCoord)
    (idx : gmap string (gset TileCoord)) : gmap string (gset TileCoord) :=
  if cond then index_add key c idx else idx.

Definition _index_tile_addresses (tile : Tile) (x y : Z)
    (idx : gmap string (gset TileCoord)) : gmap string (gset TileCoord) :=
  let idx := index_if (Py.truthy (sector tile)) (sector_path tile) (x, y) idx in
  let idx := index_if (Py.truthy (arena tile)) (arena_path tile) (x, y) idx in
  let idx := index_if (Py.truthy (game_object tile)) (object_path tile) (x, y) idx in
  index_if (Py.truthy (spawning_location tile)) (spawn_path tile) (x, y) idx.

(** The tile literal of the constructor's inner loop, with the game
    object's initial event. *)
Definition build_tile (f : MazeFiles) (idx : Z) : result Tile :=
  s ← Py.getitem (sector_raw f) idx;
  a ← Py.getitem (arena_raw f) idx;
  o ← Py.getitem (object_raw f) idx;
  sp ← Py.getitem (spawn_raw f) idx;
  c ← Py.getitem (collision_raw f) idx;
  let tile :=
    mkTile (world_block f)
           (Py.dict_get (sector_blocks f) s)
           (Py.dict_get (arena_blocks f) a)
           (Py.dict_get (object_blocks f) o)
           (Py.dict_get (spawn_blocks f) sp)
           (negb (String.eqb c "0"))
           ∅ in
  Ok (if Py.truthy (game_object tile)
      then set_events tile {[ (object_path tile, None, None, None) ]}
      else tile).

Definition RowState : Type := list Tile * gmap string (gset TileCoord).
Definition GridState : Type := list (list Tile) * gmap string (gset TileCoord).

(** body of [for x in range(self.maze_width)] *)
Definition init_cell (f : MazeFiles) (y : Z) (st : RowState) (x : Z)
    : result RowState :=
  tile ← build_tile f (y * meta_maze_width f + x);
  Ok (st.1 ++ [tile], _index_tile_addresses tile x y st.2).

(** body of [for y in range(self.maze_height)] *)
Definition init_row (f : MazeFiles) (st : GridState) (y : Z)
    : result GridState :=
  r ← Py.for_each (init_cell f y) ([], st.2)
        (Py.range 0 (meta_maze_width f));
  Ok (st.1 ++ [r.1], r.2).

(** [Maze.__init__] *)
Definition Maze_init (name : string) (f : MazeFiles) : result Maze :=
  g ← Py.for_each (init_row f) ([], ∅) (Py.range 0 (meta_maze_height f));
  Ok (mkMaze name (meta_maze_width f) (meta_maze_height f)
             (meta_sq_tile_size f) g.1 g.2).

(** The ceiling of the exact quotient [a / b], for [b ≠ 0]. *)
Definition ceil_div (a b : Z) : Z := - ((- a) / b).

Definition turn_coordinate_to_tile (m : Maze) (px : Z * Z)
    : result TileCoord :=
  x ← (q ← Py.truediv px.1 (sq_tile_size m); Py.math_ceil q);
  y ← (q ← Py.truediv px.2 (sq_tile_size m); Py.math_ceil q);
  Ok (x, y).

Definition access_tile (m : Maze) (tile : TileCoord) : result Tile :=
  let '(x, y) := tile in
  row ← Py.getitem (tiles m) y;
  Py.getitem row x.

Definition get_tile_path (m : Maze) (tile : TileCoord) (level : string)
    : result string :=
  t ← access_tile m tile;
  if String.eqb level "world" then Ok (world t)
  else if String.eqb level "sector" then Ok (sector_path t)
  else if String.eqb level "arena" then Ok (arena_path t)
  else Ok (object_path t).

Definition get_nearby_tiles (m : Maze) (tile : TileCoord) (vision_r : Z)
    : list TileCoord :=
  let '(x, y) := tile in
  let x_min := Z.max 0 (x - vision_r) in
  let x_max := Z.min (maze_width m) (x + vision_r + 1) in
  let y_min := Z.max 0 (y - vision_r) in
  let y_max := Z.min (maze_height m) (y + vision_r + 1) in
  i ← Py.range x_min x_max; j ← Py.range y_min y_max; [(i, j)].

(** [self.address_tiles[address]] *)
Definition tiles_for_address (m : Maze) (address : string)
    : gset TileCoord :=
  index_lookup (address_tiles m) address.

(** The event set of a tile is mutated in place: the maze after the
    call holds the new set at the position [access_tile] read. *)
Definition store_tile (m : Maze) (tile : TileCoord) (t : Tile) : Maze :=
  match Py.norm_index (length (tiles m)) tile.2 with
  | Some ky =>
      match tiles m !! ky with
      | Some row =>
          match Py.norm_index (length row) tile.1 with
          | Some kx =>
              mkMaze (maze_name m) (maze_width m) (maze_height m)
                     (sq_tile_size m)
                     (<[ky := <[kx := t]> row]> (tiles m))
                     (address_tiles m)
          | None => m
          end
      | None => m
      end
  | None => m
  end.

Definition update_events (m : Maze) (tile : TileCoord)
    (f : gset Event → gset Event) : result Maze :=
  t ← access_tile m tile;
  Ok (store_tile m tile (set_events t (f (events t)))).

Definition idle_of (e : Event) : Event := (subject e, None, None, None).

Definition add_event_from_tile (m : Maze) (event : Event) (tile : TileCoord)
    : result Maze :=
  update_events m tile (λ evs, evs ∪ {[event]}).

Definition remove_event_from_tile (m : Maze) (event : Event)
    (tile : TileCoord) : result Maze :=
  update_events m tile (λ evs, evs ∖ {[event]}).

Definition turn_event_from_tile_idle (m : Maze) (event : Event)
    (tile : TileCoord) : result Maze :=
  update_events m tile (λ evs,
    if decide (event ∈ evs) then (evs ∖ {[event]}) ∪ {[idle_of event]}
    else evs).

Definition remove_subject_events_from_tile (m : Maze) (subj : string)
    (tile : TileCoord) : result Maze :=
  update_events m tile (λ evs, filter (λ ev, subject ev ≠ subj) evs).

(** The four event mutations as commands, and what the maze looks like
    after one of them: a command that raises leaves the maze as it
    was, since [access_tile] raises before anything is written. *)
Inductive EventOp : Type :=
  | AddEvent (event : Event) (tile : TileCoord)
  | RemoveEvent (event : Event) (tile : TileCoord)
  | IdleEvent (event : Event) (tile : TileCoord)
  | RemoveSubjectEvents (subj : string) (tile : TileCoord).

Definition run_op (op : EventOp) (m : Maze) : result Maze :=
  match op with
  | AddEvent e c => add_event_from_tile m e c
  | RemoveEvent e c => remove_event_from_tile m e c
  | IdleEvent e c => turn_event_from_tile_idle m e c
  | RemoveSubjectEvents s c => remove_subject_events_from_tile m s c
  end.

Definition after_op (m : Maze) (op : EventOp) : Maze :=
  match run_op op m with
  | Ok m' => m'
  | Raise _ => m
  end.

Definition after_ops (m : Maze) (ops : list EventOp) : Maze :=
  foldl after_op m ops.

(** *** The town of the specification's scenario

    A 3 by 3 grid with tile size 1, world [Town], sector [park] on
    every cell, arena [bench] and object [chessboard] on (1,1) only. *)
Definition town_files : MazeFiles :=
  {| meta_maze_width := 3;
     meta_maze_height := 3;
     meta_sq_tile_size := 1;
     world_block := "Town";
     sector_blocks := {[ "1" := "park" ]};
     arena_blocks := {[ "2" := "bench" ]};
     object_blocks := {[ "3" := "chessboard" ]};
     spawn_blocks := ∅;
     collision_raw := ["0"; "0"; "0"; "0"; "0"; "0"; "0"; "0"; "0"];
     sector_raw := ["1"; "1"; "1"; "1"; "1"; "1"; "1"; "1"; "1"];
     arena_raw := ["0"; "0"; "0"; "0"; "2"; "0"; "0"; "0"; "0"];
     object_raw := ["0"; "0"; "0"; "0"; "3"; "0"; "0"; "0"; "0"];
     spawn_raw := ["0"; "0"; "0"; "0"; "0"; "0"; "0"; "0"; "0"] |}.

Definition empty_maze : Maze := mkMaze "" 0 0 0 [] ∅.

Definition town : Maze :=
  match Maze_init "the_ville" town_files with
  | Ok m => m
  | Raise _ => empty_maze
  end.

(** A 1 by 1 grid whose sector layer has two cells. *)
Definition oversized_files : MazeFiles :=
  {| meta_maze_width := 1;
     meta_maze_height := 1;
     meta_sq_tile_size := 32;
     world_block := "Town";
     sector_blocks := {[ "1" := "park" ]};
     arena_blocks := ∅;
     object_blocks := ∅;
     spawn_blocks := ∅;
     collision_raw := ["0"];
     sector_raw := ["1"; "1"];
     arena_raw := ["0"];
     object_raw := ["0"];
     spawn_raw := ["0"] |}.

(** The maze of [oversized_files]: one tile of 32 pixels. *)
Definition one_tile : Maze :=
  match Maze_init "the_ville" oversized_files with
  | Ok m => m
  | Raise _ => empty_maze
  end.

Definition chessboard_idle : Event :=
  ("Town:park:bench:chessboard", None, None, None).

(** The tile at (1, 1) of the town, as the constructor leaves it. *)
Definition chessboard_tile : Tile :=
  mkTile "Town" "park" "bench" "chessboard" "" false {[ chessboard_idle ]}.

(** Any other tile of the town. *)
Definition park_tile : Tile := mkTile "Town" "park" "" "" "" false ∅.

Definition park_busy : Event := ("Town:park", Some "is", Some "busy", None).


(** ** datetime

    The part of Python's [datetime] a tick uses: the fields of a
    [datetime.datetime] and [strftime("%A %B %d")] in the C locale
    (weekday name, month name, day of the month on two digits). The
    weekday is computed as CPython does, from the proleptic Gregorian
    ordinal of the date. *)
Module datetime.

Record t : Type := mk {
  year : Z;
  month : Z;
  day : Z;
  hour : Z;
  minute : Z;
  second : Z;
  microsecond : Z
}.

Definition is_leap (y : Z) : bool :=
  (y mod 4 =? 0) && (negb (y mod 100 =? 0) || (y mod 400 =? 0)).

Definition days_before_year (y : Z) : Z :=
  let y := y - 1 in
  y * 365 + y / 4 - y / 100 + y / 400.

Definition days_in_month (y m : Z) : Z :=
  match m with
  | 1 | 3 | 5 | 7 | 8 | 10 | 12 => 31
  | 4 | 6 | 9 | 11 => 30
  | 2 => if is_leap y then 29 else 28
  | _ => 0
  end.

Definition days_before_month (y m : Z) : Z :=
  (match m with
   | 1 => 0 | 2 => 31 | 3 => 59 | 4 => 90 | 5 => 120 | 6 => 151
   | 7 => 181 | 8 => 212 | 9 => 243 | 10 => 273 | 11 => 304 | 12 => 334
   | _ => 0
   end)
  + (if (2 <? m) && is_leap y then 1 else 0).

Definition toordinal (d : t) : Z :=
  days_before_year (year d) + days_before_month (year d) (month d) + day d.

(** Monday is 0 and Sunday is 6. *)
Definition weekday (d : t) : Z := (toordinal d + 6) mod 7.

Definition day_name (wd : Z) : string :=
  match wd with
  | 0 => "Monday" | 1 => "Tuesday" | 2 => "Wednesday" | 3 => "Thursday"
  | 4 => "Friday" | 5 => "Saturday" | 6 => "Sunday"
  | _ => ""
  end.

Definition month_name (m : Z) : string :=
  match m with
  | 1 => "January" | 2 => "February" | 3 => "March" | 4 => "April"
  | 5 => "May" | 6 => "June" | 7 => "July" | 8 => "August"
  | 9 => "September" | 10 => "October" | 11 => "November"
  | 12 => "December"
  | _ => ""
  end.

Definition digit (n : Z) : ascii := ascii_of_nat (48 + Z.to_nat n).

(** [%d]: the day of the month as a zero-padded decimal number *)
Definition pad2 (n : Z) : string :=
  String (digit (n / 10)) (String (digit (n mod 10)) "").

(** [d.strftime("%A %B %d")] *)
Definition strftime_A_B_d (d : t) : string :=
  day_name (weekday d) +:+ " " +:+ month_name (month d) +:+ " "
  +:+ pad2 (day d).

(** The values the constructor of [datetime.datetime] accepts. *)
Definition valid (d : t) : bool :=
  (1 <=? year d) && (year d <=? 9999)
  && (1 <=? month d) && (month d <=? 12)
  && (1 <=? day d) && (day d <=? days_in_month (year d) (month d))
  && (0 <=? hour d) && (hour d <? 24)
  && (0 <=? minute d) && (minute d <? 60)
  && (0 <=? second d) && (second d <? 60)
  && (0 <=? microsecond d) && (microsecond d <? 1000000).

(** The calendar day of a datetime: year, month and day of the month. *)
Definition date (d : t) : Z * Z * Z := (year d, month d, day d).

End datetime.

(** ** persona/persona.py *)

(** The value of [new_day] in [Persona.move]: [False], ["First day"] or
    ["New day"]. *)
Inductive NewDay : Type :=
  | new_day_False
  | First_day
  | New_day.

(** The five cognitive modules [move] calls. *)
Inductive Module_ : Type :=
  | Perceive
  | Retrieve
  | Plan
  | Reflect
  | Execute.

(** A record of one call of a cognitive module and of how it ended. The
    log of a tick is ghost state: it is written by [call] only, and
    nothing reads it. *)
Inductive LogEntry : Type :=
  | Returned (m : Module_)
  | Raised (m : Module_) (e : PyError).




Section Persona.

(** The memory stores and the values the cognitive modules exchange
    are opaque to [Persona]; so is everything else a module can reach
    (the maze, the other personas, the reasoning service), which is
    the [Env] part of the heap. [MazeT] is the [maze: Any] argument
    and [Personas] the [personas] dictionary. *)
Context {MemoryTree AssociativeMemory ScratchRest Env : Type}.
Context {MazeT Personas Perceived Retrieved PlanResult Action : Type}.

Record Scratch : Type := mkScratch {
  curr_tile : option TileCoord;
  curr_time : option datetime.t;
  scratch_rest : ScratchRest
}.

Record Persona : Type := mkPersona {
  name : string;
  s_mem : MemoryTree;
  a_mem : AssociativeMemory;
  scratch : Scratch
}.

Record Heap : Type := mkHeap {
  self : Persona;
  env : Env
}.

Definition set_curr_tile (c : TileCoord) (h : Heap) : Heap :=
  let p := self h in
  mkHeap (mkPersona (name p) (s_mem p) (a_mem p)
            (mkScratch (Some c) (curr_time (scratch p))
               (scratch_rest (scratch p))))
         (env h).

Definition set_curr_time (d : datetime.t) (h : Heap) : Heap :=
  let p := self h in
  mkHeap (mkPersona (name p) (s_mem p) (a_mem p)
            (mkScratch (curr_tile (scratch p)) (Some d)
               (scratch_rest (scratch p))))
         (env h).

(** A cognitive module is given the persona and may change it, and
    the rest of the heap, before it returns or raises. *)
Definition Collaborator (A : Type) : Type := Heap → result A * Heap.

Variable perceive : MazeT → Collaborator Perceived.
Variable retrieve : Perceived → Collaborator Retrieved.
Variable plan :
  MazeT → Personas → NewDay → Retrieved → Collaborator PlanResult.
Variable reflect : Collaborator unit.
Variable execute : MazeT → Personas → PlanResult → Collaborator Action.

(** A computation of a tick: it runs on the heap, appends to the log,
    and returns or raises. *)
Definition Tick (A : Type) : Type :=
  Heap → list LogEntry → result A * Heap * list LogEntry.

Definition tick_ret {A} (a : A) : Tick A := λ h log, (Ok a, h, log).

Definition tick_bind {A B} (c : Tick A) (k : A → Tick B) : Tick B :=
  λ h log,
    match c h log with
    | (Ok a, h', log') => k a h' log'
    | (Raise e, h', log') => (Raise e, h', log')
    end.

Definition tick_get {A} (f : Heap → A) : Tick A := λ h log, (Ok (f h), h, log).

Definition tick_modify (f : Heap → Heap) : Tick unit :=
  λ h log, (Ok tt, f h, log).

Definition call {A} (m : Module_) (c : Collaborator A) : Tick A :=
  λ h log,
    match c h with
    | (Ok a, h') => (Ok a, h', log ++ [Returned m])
    | (Raise e, h') => (Raise e, h', log ++ [Raised m e])
    end.

Notation "x <- c ;; k" := (tick_bind c (λ x, k))
  (at level 100, c at next level, right associativity, only parsing).
Notation "c ;; k" := (tick_bind c (λ _, k))
  (at level 100, right associativity, only parsing).

(** The [new_day] flag of [move]. A [datetime] is always true as a
    condition, so [not self.scratch.curr_time] holds for [None]
    only. *)
Definition detect_new_day (prev : option datetime.t)
    (curr_time : datetime.t) : NewDay :=
  match prev with
  | None => First_day
  | Some p =>
      if decide (datetime.strftime_A_B_d p
                 ≠ datetime.strftime_A_B_d curr_time)
      then New_day
      else new_day_False
  end.

Definition move (maze : MazeT) (personas : Personas)
    (tile : TileCoord) (time : datetime.t) : Tick Action :=
  tick_modify (set_curr_tile tile) ;;
  prev <- tick_get (λ h, curr_time (scratch (self h))) ;;
  let new_day := detect_new_day prev time in
  tick_modify (set_curr_time time) ;;
  perceived <- call Perceive (perceive maze) ;;
  retrieved <- call Retrieve (retrieve perceived) ;;
  plan_result <- call Plan (plan maze personas new_day retrieved) ;;
  call Reflect reflect ;;
  call Execute (execute maze personas plan_result).


(** One tick from a heap, with an empty log. *)
Definition run_move (maze : MazeT) (personas : Personas)
    (tile : TileCoord) (time : datetime.t) (h : Heap)
    : result Action * Heap * list LogEntry :=
  move maze personas tile time h [].

End Persona.

(** *** A persona with trivial memories, to run ticks on *)

Definition StubHeap : Type := @Heap unit unit unit unit.

Definition StubCollaborator (A : Type) : Type :=
  @Collaborator unit unit unit unit A.

Definition stub_heap (prev : option datetime.t) : StubHeap :=
  mkHeap (mkPersona "Isabella Rodriguez" tt tt (mkScratch None prev tt)) tt.

(** Modules that do nothing; the plan is the day flag the planner was
    given, and the action is the plan. *)
Definition stub_perceive (maze : unit) : StubCollaborator unit :=
  λ h, (Ok tt, h).
Definition stub_retrieve (perceived : unit) : StubCollaborator unit :=
  λ h, (Ok tt, h).
Definition stub_plan (maze personas : unit) (new_day : NewDay)
    (retrieved : unit) : StubCollaborator NewDay :=
  λ h, (Ok new_day, h).
Definition stub_reflect : StubCollaborator unit :=
  λ h, (Ok tt, h).
Definition stub_execute (maze personas : unit) (plan_result : NewDay)
    : StubCollaborator NewDay :=
  λ h, (Ok plan_result, h).


Definition new_year_2017 : datetime.t := datetime.mk 2017 1 1 9 0 0 0.
Definition new_year_2023 : datetime.t := datetime.mk 2023 1 1 9 0 0 0.

(** ** Invariants of the grid *)

(** The reverse index knows tile [t] at coordinate [c] under each of the
    addresses [_index_tile_addresses] files it under. *)
Definition indexed (idx : gmap string (gset TileCoord)) (c : TileCoord)
    (t : Tile) : Prop :=
  (Py.truthy (sector t) → c ∈ index_lookup idx (sector_path t))
  ∧ (Py.truthy (arena t) → c ∈ index_lookup idx (arena_path t))
  ∧ (Py.truthy (game_object t) → c ∈ index_lookup idx (object_path t))
  ∧ (Py.truthy (spawning_location t) → c ∈ index_lookup idx (spawn_path t)).

Definition grid_indexed (idx : gmap string (gset TileCoord))
    (g : list (list Tile)) : Prop :=
  ∀ (ky kx : nat) row t,
    g !! ky = Some row → row !! kx = Some t →
    indexed idx (Z.of_nat kx, Z.of_nat ky) t.

(** [h] rows of [w] tiles each. *)
Definition grid_shape (w h : Z) (g : list (list Tile)) : Prop :=
  length g = Z.to_nat h ∧ Forall (λ row, length row = Z.to_nat w) g.

Definition maze_ok (m : Maze) : Prop :=
  grid_shape (maze_width m) (maze_height m) (tiles m)
  ∧ grid_indexed (address_tiles m) (tiles m).

(** The number of cells the constructor reads from each layer. *)
Definition cells (f : MazeFiles) : Z :=
  Z.max 0 (meta_maze_height f) * Z.max 0 (meta_maze_width f).

Definition layers (f : MazeFiles) : list (list string) :=
  [collision_raw f; sector_raw f; arena_raw f; object_raw f; spawn_raw f].

(** The addresses [_index_tile_addresses] files a tile under. *)
Definition addressed (t : Tile) (key : string) : Prop :=
  (Py.truthy (sector t) ∧ key = sector_path t)
  ∨ (Py.truthy (arena t) ∧ key = arena_path t)
  ∨ (Py.truthy (game_object t) ∧ key = object_path t)
  ∨ (Py.truthy (spawning_location t) ∧ key = spawn_path t).

(** Every entry of the reverse index is the coordinate of a tile of the
    grid that carries the address. *)
Definition grid_sound (idx : gmap string (gset TileCoord))
    (g : list (list Tile)) : Prop :=
  ∀ key c,
    c ∈ index_lookup idx key →
    ∃ (ky kx : nat) row t,
      c = (Z.of_nat kx, Z.of_nat ky)
      ∧ g !! ky = Some row ∧ row !! kx = Some t ∧ addressed t key.

(** The tile in row [ky], column [kx] is the one the constructor builds
    from cell [ky * width + kx] of the layers. *)
Definition grid_built (f : MazeFiles) (g : list (list Tile)) : Prop :=
  ∀ (ky kx : nat) row t,
    g !! ky = Some row → row !! kx = Some t →
    build_tile f (Z.of_nat ky * meta_maze_width f + Z.of_nat kx) = Ok t.

(** Two tiles that differ in their events at most. *)
Definition static_eq (t t' : Tile) : Prop := t' = set_events t (events t').

Definition grid_static_eq (g g' : list (list Tile)) : Prop :=
  Forall2 (Forall2 static_eq) g g'.

(** The tile an event mutation works on. *)
Definition op_tile (op : EventOp) : TileCoord :=
  match op with
  | AddEvent _ c => c
  | RemoveEvent _ c => c
  | IdleEvent _ c => c
  | RemoveSubjectEvents _ c => c
  end.

(** ** Loading the files

    [Maze.__init__] from the rows [read_file_to_list] returns for each
    CSV file, and the three integers of the meta file. *)

(** [{row[0]: row[-1] for row in rows}] *)
Definition load_block_map (rows : list (list string))
    : result (gmap string string) :=
  Py.for_each
    (λ d row, k ← Py.getitem row 0; v ← Py.getitem row (-1); Ok (<[k := v]> d))
    ∅ rows.

(** [read_file_to_list(...)[0]] *)
Definition load_maze (rows : list (list string)) : result (list string) :=
  Py.getitem rows 0.

Record MazeRows : Type := mkMazeRows {
  rows_maze_width : Z;
  rows_maze_height : Z;
  rows_sq_tile_size : Z;
  world_blocks_csv : list (list string);
  sector_blocks_csv : list (list string);
  arena_blocks_csv : list (list string);
  game_object_blocks_csv : list (list string);
  spawning_location_blocks_csv : list (list string);
  collision_maze_csv : list (list string);
  sector_maze_csv : list (list string);
  arena_maze_csv : list (list string);
  game_object_maze_csv : list (list string);
  spawning_location_maze_csv : list (list string)
}.

(** The part of [Maze.__init__] before the tiles are built. *)
Definition load_files (r : MazeRows) : result MazeFiles :=
  first_row ← Py.getitem (world_blocks_csv r) 0;
  world ← Py.getitem first_row (-1);
  sectors ← load_block_map (sector_blocks_csv r);
  arenas ← load_block_map (arena_blocks_csv r);
  objects ← load_block_map (game_object_blocks_csv r);
  spawns ← load_block_map (spawning_location_blocks_csv r);
  collision ← load_maze (collision_maze_csv r);
  sector ← load_maze (sector_maze_csv r);
  arena ← load_maze (arena_maze_csv r);
  object ← load_maze (game_object_maze_csv r);
  spawn ← load_maze (spawning_location_maze_csv r);
  Ok (mkMazeFiles (rows_maze_width r) (rows_maze_height r)
        (rows_sq_tile_size r) world sectors arenas objects spawns
        collision sector arena object spawn).

Definition Maze_init_rows (name : string) (r : MazeRows) : result Maze :=
  f ← load_files r; Maze_init name f.

(** The files of the town. *)
Definition town_rows : MazeRows :=
  {| rows_maze_width := 3;
     rows_maze_height := 3;
     rows_sq_tile_size := 1;
     world_blocks_csv := [["0"; "Town"]];
     sector_blocks_csv := [["1"; "Town"; "park"]];
     arena_blocks_csv := [["2"; "Town"; "park"; "bench"]];
     game_object_blocks_csv :=
       [["3"; "Town"; "park"; "bench"; "chessboard"]];
     spawning_location_blocks_csv := [];
     collision_maze_csv := [["0"; "0"; "0"; "0"; "0"; "0"; "0"; "0"; "0"]];
     sector_maze_csv := [["1"; "1"; "1"; "1"; "1"; "1"; "1"; "1"; "1"]];
     arena_maze_csv := [["0"; "0"; "0"; "0"; "2"; "0"; "0"; "0"; "0"]];
     game_object_maze_csv :=
       [["0"; "0"; "0"; "0"; "3"; "0"; "0"; "0"; "0"]];
     spawning_location_maze_csv :=
       [["0"; "0"; "0"; "0"; "0"; "0"; "0"; "0"; "0"]] |}.

(** ** global_methods.py *)

(** [read_file_to_set]: [{row[col] for row in csv.reader(f) if row}].
    [rows] are the rows the csv reader yields for the file. *)
Definition read_file_to_set (rows : list (list string)) (col : Z)
    : result (gset string) :=
  Py.for_each
    (λ acc row,
       match row with
       | [] => Ok acc
       | _ :: _ => cell ← Py.getitem row col; Ok (acc ∪ {[ cell ]})
       end)
    ∅ rows.

(** * Properties *)

(** ** Python sequences *)

Section PySequences.

Context {A : Type}.
Implicit Types (l : list A) (i : Z) (k : nat).

Lemma norm_index_bound n i k :
  Py.norm_index n i = Some k → (k < n)%nat.
Proof.
  unfold Py.norm_index.
  destruct (Z.leb_spec 0 i).
  - destruct (Z.ltb_spec i (Z.of_nat n)); [|done].
    intros [= <-]. lia.
  - destruct (Z.leb_spec (- Z.of_nat n) i); [|done].
    intros [= <-]. lia.
Qed.

Lemma norm_index_nonneg n i :
  0 ≤ i < Z.of_nat n → Py.norm_index n i = Some (Z.to_nat i).
Proof.
  intros [Hlo Hhi]. unfold Py.norm_index.
  destruct (Z.leb_spec 0 i); [|lia].
  destruct (Z.ltb_spec i (Z.of_nat n)); [done|lia].
Qed.

Lemma norm_index_negative n i :
  - Z.of_nat n ≤ i < 0 →
  Py.norm_index n i = Some (Z.to_nat (Z.of_nat n + i)).
Proof.
  intros [Hlo Hhi]. unfold Py.norm_index.
  destruct (Z.leb_spec 0 i); [lia|].
  destruct (Z.leb_spec (- Z.of_nat n) i); [done|lia].
Qed.

Lemma norm_index_None n i :
  Py.norm_index n i = None ↔ ¬ (- Z.of_nat n ≤ i < Z.of_nat n).
Proof.
  unfold Py.norm_index.
  destruct (Z.leb_spec 0 i).
  - destruct (Z.ltb_spec i (Z.of_nat n)); split; (done || lia).
  - destruct (Z.leb_spec (- Z.of_nat n) i); split; (done || lia).
Qed.

Lemma getitem_Ok l i a :
  Py.getitem l i = Ok a ↔
  ∃ k, Py.norm_index (length l) i = Some k ∧ l !! k = Some a.
Proof.
  unfold Py.getitem.
  destruct (Py.norm_index (length l) i) as [k|] eqn:Hk.
  - destruct (l !! k) as [b|] eqn:Hb; split.
    + intros [= <-]. eauto.
    + intros (k' & [= <-] & Hk'). congruence.
    + done.
    + intros (k' & [= <-] & Hk'). congruence.
  - split; [done|]. by intros (k' & ? & _).
Qed.

Lemma getitem_nonneg l i :
  0 ≤ i < Z.of_nat (length l) →
  ∃ a, l !! Z.to_nat i = Some a ∧ Py.getitem l i = Ok a.
Proof.
  intros Hi. unfold Py.getitem. rewrite norm_index_nonneg by done.
  destruct (lookup_lt_is_Some_2 l (Z.to_nat i)) as [a Ha]; [lia|].
  exists a. by rewrite Ha.
Qed.

(** A negative index within the length reads from the end. *)
Lemma getitem_negative l i :
  - Z.of_nat (length l) ≤ i < 0 →
  Py.getitem l i = Py.getitem l (Z.of_nat (length l) + i).
Proof.
  intros Hi. unfold Py.getitem.
  rewrite norm_index_negative by done.
  rewrite norm_index_nonneg by lia. done.
Qed.

Lemma getitem_Raise l i :
  Py.getitem l i = Raise IndexError ↔
  ¬ (- Z.of_nat (length l) ≤ i < Z.of_nat (length l)).
Proof.
  rewrite <- norm_index_None. unfold Py.getitem.
  destruct (Py.norm_index (length l) i) as [k|] eqn:Hk; [|done].
  apply norm_index_bound in Hk as Hlt.
  destruct (lookup_lt_is_Some_2 l k Hlt) as [a ->]. done.
Qed.

Lemma getitem_cases l i :
  (∃ a, Py.getitem l i = Ok a) ∨ Py.getitem l i = Raise IndexError.
Proof.
  unfold Py.getitem.
  destruct (Py.norm_index (length l) i) as [k|]; [|by right].
  destruct (l !! k) as [a|]; [left; eauto | by right].
Qed.

End PySequences.

Lemma range_lookup lo hi (k : nat) a :
  Py.range lo hi !! k = Some a ↔ a = lo + Z.of_nat k ∧ Z.of_nat k < hi - lo.
Proof.
  unfold Py.range. rewrite list_lookup_fmap.
  destruct (decide (k < Z.to_nat (hi - lo))%nat) as [Hk|Hk].
  - rewrite lookup_seq_lt by done. simpl. split.
    + intros [= <-]. lia.
    + intros [-> _]. done.
  - rewrite lookup_seq_ge by lia. simpl. split; [done|lia].
Qed.

Lemma length_range lo hi : length (Py.range lo hi) = Z.to_nat (hi - lo).
Proof. unfold Py.range. by rewrite length_fmap, length_seq. Qed.

Lemma elem_of_range lo hi i : i ∈ Py.range lo hi ↔ lo ≤ i < hi.
Proof.
  rewrite list_elem_of_lookup. split.
  - intros [k Hk]. apply range_lookup in Hk. lia.
  - intros Hi. exists (Z.to_nat (i - lo)). apply range_lookup. lia.
Qed.

Lemma NoDup_range lo hi : NoDup (Py.range lo hi).
Proof.
  apply NoDup_alt. intros j k a Hj Hk.
  apply range_lookup in Hj, Hk. lia.
Qed.

(** Loop invariants: [P k s] holds of the state before the iteration on
    the [k]-th element. *)
Lemma for_each_invariant {St A} (f : St → A → result St)
    (P : nat → St → Prop) (l : list A) (s0 s : St) :
  P 0%nat s0 →
  (∀ k a s1 s2, l !! k = Some a → P k s1 → f s1 a = Ok s2 → P (S k) s2) →
  Py.for_each f s0 l = Ok s →
  P (length l) s.
Proof.
  revert P s0. induction l as [|a l IH]; intros P s0 H0 Hstep; simpl.
  - by intros [= <-].
  - destruct (f s0 a) as [s1|e] eqn:Hf; simpl; [|done].
    intros Hrest.
    apply (IH (λ k, P (S k)) s1); [| |done].
    + by apply (Hstep 0%nat a s0 s1).
    + intros k b t1 t2 Hk. by apply (Hstep (S k) b t1 t2).
Qed.

(** A loop whose body cannot raise on the elements it is given runs to
    its end. *)
Lemma for_each_total {St A} (f : St → A → result St) (l : list A) (s0 : St) :
  (∀ a s1, a ∈ l → ∃ s2, f s1 a = Ok s2) →
  ∃ s, Py.for_each f s0 l = Ok s.
Proof.
  revert s0. induction l as [|a l IH]; intros s0 Hf; simpl; [eauto|].
  destruct (Hf a s0) as [s1 ->]; [set_solver|]. simpl.
  apply IH. intros b s2 Hb. apply Hf. set_solver.
Qed.

(** A loop that runs to its end has run its body on every element. *)
Lemma for_each_Ok_body {St A} (f : St → A → result St) (l : list A) (s0 s : St) :
  Py.for_each f s0 l = Ok s →
  ∀ a, a ∈ l → ∃ s1 s2, f s1 a = Ok s2.
Proof.
  revert s0. induction l as [|b l IH]; intros s0; simpl.
  - intros _ a Ha. set_solver.
  - destruct (f s0 b) as [s1|e] eqn:Hf; simpl; [|done].
    intros Hrest a [->|Ha]%elem_of_cons; [eauto|].
    by apply (IH s1).
Qed.

Lemma for_each_Raise {St A} (f : St → A → result St) (e0 : PyError)
    (l : list A) (s0 : St) e :
  (∀ a s1 e1, f s1 a = Raise e1 → e1 = e0) →
  Py.for_each f s0 l = Raise e → e = e0.
Proof.
  intros Hf. revert s0. induction l as [|b l IH]; intros s0; simpl; [done|].
  destruct (f s0 b) as [s1|e1] eqn:Hb; simpl.
  - apply IH.
  - intros [= <-]. by apply (Hf b s0).
Qed.

(** ** The reverse index *)

Lemma index_lookup_add key c idx k :
  index_lookup (index_add key c idx) k
  = if decide (key = k) then index_lookup idx k ∪ {[c]}
    else index_lookup idx k.
Proof.
  unfold index_add, index_lookup at 1.
  destruct (decide (key = k)) as [->|Hne].
  - by rewrite lookup_insert_eq.
  - by rewrite lookup_insert_ne.
Qed.

Lemma index_if_mono cond key c idx k c' :
  c' ∈ index_lookup idx k → c' ∈ index_lookup (index_if cond key c idx) k.
Proof.
  destruct cond; simpl; [|done].
  rewrite index_lookup_add. case_decide; set_solver.
Qed.

Lemma index_if_here key c idx :
  c ∈ index_lookup (index_if true key c idx) key.
Proof.
  simpl. rewrite index_lookup_add. rewrite decide_True by done. set_solver.
Qed.

Lemma index_tile_addresses_mono tile x y idx k c :
  c ∈ index_lookup idx k →
  c ∈ index_lookup (_index_tile_addresses tile x y idx) k.
Proof.
  intros Hc. unfold _index_tile_addresses.
  by do 4 apply index_if_mono.
Qed.

Lemma index_tile_addresses_indexed tile x y idx :
  indexed (_index_tile_addresses tile x y idx) (x, y) tile.
Proof.
  unfold indexed, _index_tile_addresses.
  repeat split; intros Ht; apply Is_true_true in Ht; rewrite Ht.
  - do 3 apply index_if_mono. apply index_if_here.
  - do 2 apply index_if_mono.
    destruct (Py.truthy (sector tile)); apply index_if_here.
  - apply index_if_mono.
    destruct (Py.truthy (sector tile)), (Py.truthy (arena tile));
      apply index_if_here.
  - destruct (Py.truthy (sector tile)), (Py.truthy (arena tile)),
      (Py.truthy (game_object tile)); apply index_if_here.
Qed.

Lemma indexed_mono idx idx' c t :
  (∀ k c', c' ∈ index_lookup idx k → c' ∈ index_lookup idx' k) →
  indexed idx c t → indexed idx' c t.
Proof.
  intros Hsub (Hs & Ha & Ho & Hp). unfold indexed. naive_solver.
Qed.

Lemma indexed_set_events idx c t evs :
  indexed idx c (set_events t evs) ↔ indexed idx c t.
Proof. done. Qed.

(** ** The constructor *)

Lemma init_cell_Ok f y st x st' :
  init_cell f y st x = Ok st' →
  ∃ tile, build_tile f (y * meta_maze_width f + x) = Ok tile
          ∧ st' = (st.1 ++ [tile], _index_tile_addresses tile x y st.2).
Proof.
  unfold init_cell.
  destruct (build_tile f (y * meta_maze_width f + x)) as [tile|e]; simpl;
    [|done].
  intros [= <-]. eauto.
Qed.

Lemma init_cells_invariant f y idx0 st :
  Py.for_each (init_cell f y) ([], idx0) (Py.range 0 (meta_maze_width f))
  = Ok st →
  length st.1 = Z.to_nat (meta_maze_width f)
  ∧ (∀ (kx : nat) t, st.1 !! kx = Some t → indexed st.2 (Z.of_nat kx, y) t)
  ∧ (∀ k c, c ∈ index_lookup idx0 k → c ∈ index_lookup st.2 k).
Proof.
  intros Hloop.
  pose (P := λ (k : nat) (s : RowState),
    length s.1 = k
    ∧ (∀ (kx : nat) t, s.1 !! kx = Some t → indexed s.2 (Z.of_nat kx, y) t)
    ∧ (∀ key c, c ∈ index_lookup idx0 key → c ∈ index_lookup s.2 key)).
  assert (P (length (Py.range 0 (meta_maze_width f))) st) as HP.
  { apply (for_each_invariant (init_cell f y) P _ ([], idx0)); [| |done].
    - unfold P; simpl. split_and!; [done| |done].
      intros kx t Hkx. by rewrite lookup_nil in Hkx.
    - intros k x s1 s2 Hx (Hlen & Hidx & Hmono) Hcell.
      apply range_lookup in Hx as [-> _].
      apply init_cell_Ok in Hcell as (tile & _ & ->).
      unfold P; simpl. split_and!.
      + rewrite length_app. simpl. lia.
      + intros kx t Hkx.
        apply lookup_app_Some in Hkx as [Hkx|[Hge Hkx]].
        * eapply indexed_mono; [|by apply Hidx].
          intros key c. apply index_tile_addresses_mono.
        * apply list_lookup_singleton_Some in Hkx as [Hkx <-].
          replace (Z.of_nat kx) with (0 + Z.of_nat k) by lia.
          apply index_tile_addresses_indexed.
      + intros key c Hc. by apply index_tile_addresses_mono, Hmono. }
  rewrite length_range in HP. destruct HP as (Hlen & Hidx & Hmono).
  split_and!; [|done..]. rewrite Hlen. f_equal. lia.
Qed.

Lemma init_row_Ok f st y st' :
  init_row f st y = Ok st' →
  ∃ r, Py.for_each (init_cell f y) ([], st.2)
         (Py.range 0 (meta_maze_width f)) = Ok r
       ∧ st' = (st.1 ++ [r.1], r.2).
Proof.
  unfold init_row.
  destruct (Py.for_each _ _ _) as [r|e]; simpl; [|done].
  intros [= <-]. eauto.
Qed.

Lemma init_rows_invariant f st :
  Py.for_each (init_row f) ([], ∅) (Py.range 0 (meta_maze_height f)) = Ok st →
  grid_shape (meta_maze_width f) (meta_maze_height f) st.1
  ∧ grid_indexed st.2 st.1.
Proof.
  intros Hloop.
  pose (P := λ (k : nat) (s : GridState),
    length s.1 = k
    ∧ Forall (λ row, length row = Z.to_nat (meta_maze_width f)) s.1
    ∧ grid_indexed s.2 s.1).
  assert (P (length (Py.range 0 (meta_maze_height f))) st) as HP.
  { apply (for_each_invariant (init_row f) P _ ([], ∅)); [| |done].
    - unfold P; simpl. split_and!; [done..|].
      intros ky kx row t Hky. by rewrite lookup_nil in Hky.
    - intros k y s1 s2 Hy (Hlen & Hrows & Hidx) Hrow.
      apply range_lookup in Hy as [-> _].
      apply init_row_Ok in Hrow as (r & Hcells & ->).
      apply init_cells_invariant in Hcells as (Hrlen & Hridx & Hmono).
      unfold P; simpl. split_and!.
      + rewrite length_app. simpl. lia.
      + apply Forall_app. split; [done|]. by apply Forall_singleton.
      + intros ky kx row t Hky Hkx.
        apply lookup_app_Some in Hky as [Hky|[Hge Hky]].
        * eapply indexed_mono; [apply Hmono|]. by eapply Hidx.
        * apply list_lookup_singleton_Some in Hky as [Hky <-].
          replace (Z.of_nat ky) with (0 + Z.of_nat k) by lia.
          by apply Hridx. }
  rewrite length_range in HP. destruct HP as (Hlen & Hrows & Hidx).
  split; [split|]; [|done..]. rewrite Hlen. f_equal. lia.
Qed.

Lemma Maze_init_Ok name f m :
  Maze_init name f = Ok m →
  ∃ g, Py.for_each (init_row f) ([], ∅) (Py.range 0 (meta_maze_height f))
       = Ok g
       ∧ m = mkMaze name (meta_maze_width f) (meta_maze_height f)
               (meta_sq_tile_size f) g.1 g.2.
Proof.
  unfold Maze_init.
  destruct (Py.for_each _ _ _) as [g|e]; simpl; [|done].
  intros [= <-]. eauto.
Qed.

(** A freshly built maze has [maze_height] rows of [maze_width] tiles, and
    its reverse index knows every tile. *)
Lemma Maze_init_ok name f m : Maze_init name f = Ok m → maze_ok m.
Proof.
  intros (g & Hg & ->)%Maze_init_Ok.
  apply init_rows_invariant in Hg as [Hshape Hidx]. by split.
Qed.

(** ** Reading a tile *)

Lemma access_tile_Ok m x y t :
  access_tile m (x, y) = Ok t ↔
  ∃ ky row kx,
    Py.norm_index (length (tiles m)) y = Some ky ∧ tiles m !! ky = Some row
    ∧ Py.norm_index (length row) x = Some kx ∧ row !! kx = Some t.
Proof.
  unfold access_tile. split.
  - destruct (Py.getitem (tiles m) y) as [row|e] eqn:Hrow; simpl; [|done].
    intros Ht.
    apply getitem_Ok in Hrow as (ky & Hky & Hrow).
    apply getitem_Ok in Ht as (kx & Hkx & Ht).
    by exists ky, row, kx.
  - intros (ky & row & kx & Hky & Hrow & Hkx & Ht).
    assert (Py.getitem (tiles m) y = Ok row) as -> by (apply getitem_Ok; eauto).
    simpl. apply getitem_Ok. eauto.
Qed.

Lemma access_tile_cases m c :
  (∃ t, access_tile m c = Ok t) ∨ access_tile m c = Raise IndexError.
Proof.
  destruct c as [x y]. unfold access_tile.
  destruct (getitem_cases (tiles m) y) as [[row ->]| ->]; simpl; [|by right].
  apply getitem_cases.
Qed.

Lemma grid_shape_row w h g (ky : nat) row :
  grid_shape w h g → g !! ky = Some row → length row = Z.to_nat w.
Proof.
  intros [_ Hrows] Hky.
  by apply (Forall_lookup_1 _ _ _ _ Hrows Hky).
Qed.

(** Inside the grid, [access_tile] reads row [y], column [x]. *)
Lemma access_tile_inside m x y :
  grid_shape (maze_width m) (maze_height m) (tiles m) →
  0 ≤ x < maze_width m → 0 ≤ y < maze_height m →
  ∃ row t,
    tiles m !! Z.to_nat y = Some row ∧ row !! Z.to_nat x = Some t
    ∧ access_tile m (x, y) = Ok t.
Proof.
  intros Hshape Hx Hy. pose proof Hshape as [Hlen _].
  destruct (lookup_lt_is_Some_2 (tiles m) (Z.to_nat y)) as [row Hrow]; [lia|].
  pose proof (grid_shape_row _ _ _ _ _ Hshape Hrow) as Hrlen.
  destruct (lookup_lt_is_Some_2 row (Z.to_nat x)) as [t Ht]; [lia|].
  exists row, t. split_and!; [done..|].
  apply access_tile_Ok. exists (Z.to_nat y), row, (Z.to_nat x).
  split_and!; [|done| |done]; apply norm_index_nonneg; lia.
Qed.

(** [access_tile] raises exactly when a component lies outside of
    [[-width, width)], respectively [[-height, height)]. *)
Lemma access_tile_Raise m x y :
  grid_shape (maze_width m) (maze_height m) (tiles m) →
  access_tile m (x, y) = Raise IndexError ↔
  ¬ (- maze_width m ≤ x < maze_width m
     ∧ - maze_height m ≤ y < maze_height m).
Proof.
  intros Hshape. pose proof Hshape as [Hlen _]. unfold access_tile.
  destruct (Py.getitem (tiles m) y) as [row|e] eqn:Hrow; simpl.
  - apply getitem_Ok in Hrow as (ky & Hky & Hrow).
    pose proof (grid_shape_row _ _ _ _ _ Hshape Hrow) as Hrlen.
    assert (Py.norm_index (length (tiles m)) y ≠ None) as Hy by congruence.
    rewrite norm_index_None in Hy.
    rewrite getitem_Raise. lia.
  - destruct (getitem_cases (tiles m) y) as [[row Hrow']|Hraise];
      [congruence|].
    assert (e = IndexError) as -> by congruence.
    apply getitem_Raise in Hraise. split; [lia|done].
Qed.

(** A negative component within the extent is read from the far end. *)
Lemma access_tile_wraps m x y :
  grid_shape (maze_width m) (maze_height m) (tiles m) →
  - maze_width m ≤ x < maze_width m → - maze_height m ≤ y < maze_height m →
  access_tile m (x, y)
  = access_tile m (x mod maze_width m, y mod maze_height m).
Proof.
  intros Hshape Hx Hy. pose proof Hshape as [Hlen _].
  assert (∀ {A} (l : list A) n i, Z.of_nat (length l) = n → - n ≤ i < n →
            Py.getitem l i = Py.getitem l (i mod n)) as Hmod.
  { intros A l n i Hn Hi. destruct (Z.neg_nonneg_cases i) as [Hneg|Hpos].
    - rewrite getitem_negative by lia.
      f_equal. rewrite Hn.
      rewrite <- (Z.mod_add i 1 n) by lia.
      rewrite Z.mod_small; lia.
    - by rewrite Z.mod_small by lia. }
  unfold access_tile.
  rewrite <- (Hmod _ (tiles m) (maze_height m) y) by lia.
  destruct (Py.getitem (tiles m) y) as [row|e] eqn:Hrow; simpl; [|done].
  apply getitem_Ok in Hrow as (ky & Hky & Hrow).
  pose proof (grid_shape_row _ _ _ _ _ Hshape Hrow) as Hrlen.
  apply Hmod; lia.
Qed.

(** ** Writing a tile's events *)

Lemma store_tile_Ok m x y t t' :
  access_tile m (x, y) = Ok t →
  ∃ ky row kx,
    Py.norm_index (length (tiles m)) y = Some ky ∧ tiles m !! ky = Some row
    ∧ Py.norm_index (length row) x = Some kx ∧ row !! kx = Some t
    ∧ store_tile m (x, y) t'
      = mkMaze (maze_name m) (maze_width m) (maze_height m) (sq_tile_size m)
               (<[ky := <[kx := t']> row]> (tiles m)) (address_tiles m).
Proof.
  intros (ky & row & kx & Hky & Hrow & Hkx & Ht)%access_tile_Ok.
  exists ky, row, kx. split_and!; [done..|].
  unfold store_tile. simpl. by rewrite Hky, Hrow, Hkx.
Qed.

Lemma access_store_tile m c t t' :
  access_tile m c = Ok t → access_tile (store_tile m c t') c = Ok t'.
Proof.
  destruct c as [x y]. intros Hacc.
  destruct (store_tile_Ok m x y t t' Hacc)
    as (ky & row & kx & Hky & Hrow & Hkx & Ht & ->).
  apply access_tile_Ok. exists ky, (<[kx := t']> row), kx. simpl.
  apply lookup_lt_Some in Hrow as Hlt. apply lookup_lt_Some in Ht as Hlt'.
  rewrite !length_insert. split_and!; [done| |done|].
  - by rewrite list_lookup_insert_eq.
  - by rewrite list_lookup_insert_eq.
Qed.

Lemma store_tile_same m c t :
  access_tile m c = Ok t → store_tile m c t = m.
Proof.
  destruct c as [x y]. intros Hacc.
  destruct (store_tile_Ok m x y t t Hacc)
    as (ky & row & kx & Hky & Hrow & Hkx & Ht & ->).
  rewrite (list_insert_id row kx t Ht), (list_insert_id _ ky row Hrow).
  by destruct m.
Qed.

Lemma store_tile_twice m c t t1 t2 :
  access_tile m c = Ok t →
  store_tile (store_tile m c t1) c t2 = store_tile m c t2.
Proof.
  destruct c as [x y]. intros Hacc.
  pose proof (access_store_tile m (x, y) t t1 Hacc) as Hacc1.
  destruct (store_tile_Ok m x y t t2 Hacc)
    as (ky & row & kx & Hky & Hrow & Hkx & Ht & ->).
  destruct (store_tile_Ok m x y t t1 Hacc)
    as (ky' & row' & kx' & Hky' & Hrow' & Hkx' & Ht' & Hst).
  assert (ky' = ky) as -> by congruence.
  assert (row' = row) as -> by congruence.
  assert (kx' = kx) as -> by congruence.
  rewrite Hst in Hacc1 |- *.
  apply lookup_lt_Some in Hrow as Hlt.
  unfold store_tile. simpl. rewrite length_insert, Hky.
  rewrite list_lookup_insert_eq by done.
  rewrite length_insert, Hkx.
  by rewrite !list_insert_insert_eq.
Qed.

Lemma update_events_Ok m c f t :
  access_tile m c = Ok t →
  update_events m c f = Ok (store_tile m c (set_events t (f (events t)))).
Proof. intros Hacc. unfold update_events. by rewrite Hacc. Qed.

Lemma update_events_Raise m c f e :
  access_tile m c = Raise e → update_events m c f = Raise e.
Proof. intros Hacc. unfold update_events. by rewrite Hacc. Qed.

(** Two updates of the same tile in a row amount to one. *)
Lemma update_events_twice m c f g t :
  access_tile m c = Ok t →
  (m1 ← update_events m c f; update_events m1 c g)
  = Ok (store_tile m c (set_events t (g (f (events t))))).
Proof.
  intros Hacc. rewrite (update_events_Ok m c f t Hacc). simpl.
  erewrite update_events_Ok by (by eapply access_store_tile).
  f_equal. simpl. by eapply store_tile_twice.
Qed.

(** An update keeps the shape of the grid, what the reverse index knows,
    and the index itself. *)
Lemma store_tile_ok m c t evs :
  access_tile m c = Ok t → maze_ok m →
  maze_ok (store_tile m c (set_events t evs)).
Proof.
  destruct c as [x y]. intros Hacc [[Hlen Hrows] Hidx].
  destruct (store_tile_Ok m x y t (set_events t evs) Hacc)
    as (ky & row & kx & Hky & Hrow & Hkx & Ht & ->).
  split; [split|]; simpl.
  - by rewrite length_insert.
  - apply Forall_insert; [done|]. rewrite length_insert.
    by apply (Forall_lookup_1 _ _ _ _ Hrows Hrow).
  - intros ky' kx' row' t' Hky' Hkx'.
    destruct (decide (ky = ky')) as [<-|Hne].
    + rewrite list_lookup_insert_eq in Hky'
        by (by eapply lookup_lt_Some).
      injection Hky' as <-.
      destruct (decide (kx = kx')) as [<-|Hnx].
      * rewrite list_lookup_insert_eq in Hkx'
          by (by eapply lookup_lt_Some).
        injection Hkx' as <-.
        apply indexed_set_events. by eapply Hidx.
      * rewrite list_lookup_insert_ne in Hkx' by done. by eapply Hidx.
    + rewrite list_lookup_insert_ne in Hky' by done. by eapply Hidx.
Qed.

Lemma store_tile_static m c t :
  maze_width (store_tile m c t) = maze_width m
  ∧ maze_height (store_tile m c t) = maze_height m
  ∧ sq_tile_size (store_tile m c t) = sq_tile_size m
  ∧ address_tiles (store_tile m c t) = address_tiles m.
Proof.
  unfold store_tile.
  destruct (Py.norm_index _ _); [|done].
  destruct (tiles m !! _); [|done].
  by destruct (Py.norm_index _ _).
Qed.

Lemma run_op_update op m :
  ∃ c f, run_op op m = update_events m c f.
Proof. destruct op; simpl; eauto. Qed.

Lemma after_op_ok m op : maze_ok m → maze_ok (after_op m op).
Proof.
  intros Hok. unfold after_op.
  destruct (run_op_update op m) as (c & f & ->).
  destruct (access_tile_cases m c) as [[t Ht]|Hr].
  - rewrite (update_events_Ok m c f t Ht). by apply store_tile_ok.
  - by rewrite (update_events_Raise m c f _ Hr).
Qed.

Lemma after_op_static m op :
  maze_width (after_op m op) = maze_width m
  ∧ maze_height (after_op m op) = maze_height m
  ∧ sq_tile_size (after_op m op) = sq_tile_size m
  ∧ address_tiles (after_op m op) = address_tiles m.
Proof.
  unfold after_op.
  destruct (run_op_update op m) as (c & f & ->).
  destruct (access_tile_cases m c) as [[t Ht]|Hr].
  - rewrite (update_events_Ok m c f t Ht). apply store_tile_static.
  - by rewrite (update_events_Raise m c f _ Hr).
Qed.

Lemma after_ops_ok ops : ∀ m, maze_ok m → maze_ok (after_ops m ops).
Proof.
  unfold after_ops. induction ops as [|op ops IH]; intros m Hok; simpl;
    [done|].
  by apply IH, after_op_ok.
Qed.

Lemma after_ops_static ops : ∀ m,
  maze_width (after_ops m ops) = maze_width m
  ∧ maze_height (after_ops m ops) = maze_height m
  ∧ sq_tile_size (after_ops m ops) = sq_tile_size m
  ∧ address_tiles (after_ops m ops) = address_tiles m.
Proof.
  unfold after_ops. induction ops as [|op ops IH]; intros m; simpl; [done|].
  destruct (IH (after_op m op)) as (-> & -> & -> & ->).
  apply after_op_static.
Qed.

(** Every maze the program can hold: built by the constructor, then
    changed by event mutations only. *)
Lemma reachable_ok name f m ops :
  Maze_init name f = Ok m → maze_ok (after_ops m ops).
Proof. intros Hinit. by eapply after_ops_ok, Maze_init_ok. Qed.

(** ** The scenario of the specification *)

Example town_loads : Maze_init "the_ville" town_files = Ok town.
Proof. reflexivity. Qed.

Example town_bench_path :
  get_tile_path town (1, 1) "arena" = Ok "Town:park:bench".
Proof. reflexivity. Qed.

Example town_bench_tiles :
  tiles_for_address town "Town:park:bench" = {[ (1, 1) ]}.
Proof. reflexivity. Qed.

Example town_chessboard :
  (t ← access_tile town (1, 1);
   Ok (game_object t, events t))
  = Ok ("chessboard",
        {[ ("Town:park:bench:chessboard", None, None, None) ]}).
Proof. reflexivity. Qed.

(** ** Tile access out of the grid *)

(** C3, as stated, fails: in the 3 by 3 town the coordinate (-1, -1) is
    outside of the grid, yet [access_tile] does not raise; it answers
    with the tile at (2, 2), the one Python's indexing from the end
    reaches. *)
Lemma access_tile_negative_in_town :
  ¬ (0 ≤ -1 < maze_width town ∧ 0 ≤ -1 < maze_height town)
  ∧ access_tile town (-1, -1) ≠ Raise IndexError
  ∧ access_tile town (-1, -1) = access_tile town (2, 2).
Proof.
  split_and!.
  - simpl. lia.
  - discriminate.
  - reflexivity.
Qed.

(** C3, amended: on every maze built by the constructor, whatever event
    mutations followed, [access_tile] raises [IndexError] exactly on the
    coordinates with [x] outside of [[-width, width)] or [y] outside of
    [[-height, height)]; a negative component within that range is not
    rejected but read from the far end of the row or column, that is at
    [x mod width], [y mod height]. *)
Theorem access_tile_out_of_range name f m ops x y :
  Maze_init name f = Ok m →
  (access_tile (after_ops m ops) (x, y) = Raise IndexError ↔
   ¬ (- maze_width m ≤ x < maze_width m
      ∧ - maze_height m ≤ y < maze_height m))
  ∧ (- maze_width m ≤ x < maze_width m →
     - maze_height m ≤ y < maze_height m →
     0 ≤ x mod maze_width m < maze_width m
     ∧ 0 ≤ y mod maze_height m < maze_height m
     ∧ access_tile (after_ops m ops) (x, y)
       = access_tile (after_ops m ops)
           (x mod maze_width m, y mod maze_height m)).
Proof.
  intros Hinit.
  pose proof (reachable_ok name f m ops Hinit) as [Hshape _].
  destruct (after_ops_static ops m) as (Hw & Hh & _ & _).
  split.
  - rewrite access_tile_Raise by done. by rewrite Hw, Hh.
  - intros Hx Hy. split_and!; try (apply Z.mod_pos_bound; lia).
    rewrite <- Hw, <- Hh. apply access_tile_wraps; [done|lia..].
Qed.

Lemma access_tile_out_of_range_witness :
  access_tile town (3, 0) = Raise IndexError.
Proof.
  apply (proj1 (access_tile_out_of_range "the_ville" town_files town []
                  3 0 eq_refl)).
  simpl. lia.
Defined.

(** ** Addresses *)

(** C10: on an in-bounds tile, any level other than "world", "sector"
    and "arena" yields the full address world:sector:arena:game_object
    of the tile. *)
Theorem get_tile_path_other_level name f m ops x y level :
  Maze_init name f = Ok m →
  0 ≤ x < maze_width m → 0 ≤ y < maze_height m →
  level ≠ "world" → level ≠ "sector" → level ≠ "arena" →
  ∃ t, access_tile (after_ops m ops) (x, y) = Ok t
       ∧ get_tile_path (after_ops m ops) (x, y) level
         = Ok (world t +:+ ":" +:+ sector t +:+ ":" +:+ arena t +:+ ":"
               +:+ game_object t).
Proof.
  intros Hinit Hx Hy Hworld Hsector Harena.
  pose proof (reachable_ok name f m ops Hinit) as [Hshape _].
  destruct (after_ops_static ops m) as (Hw & Hh & _ & _).
  destruct (access_tile_inside (after_ops m ops) x y)
    as (row & t & _ & _ & Hacc); [done|lia..|].
  exists t. split; [done|].
  unfold get_tile_path. rewrite Hacc. simpl.
  apply String.eqb_neq in Hworld, Hsector, Harena.
  by rewrite Hworld, Hsector, Harena.
Qed.

Lemma get_tile_path_other_level_witness :
  ∃ t, access_tile town (1, 1) = Ok t
       ∧ get_tile_path town (1, 1) "whatever"
         = Ok (world t +:+ ":" +:+ sector t +:+ ":" +:+ arena t +:+ ":"
               +:+ game_object t).
Proof.
  apply (get_tile_path_other_level "the_ville" town_files town []
           1 1 "whatever" eq_refl);
    first [ simpl; lia | discriminate ].
Defined.

(** C7: in a maze built by the constructor, every in-bounds tile with a
    non-empty arena is listed by the reverse index under its arena
    address; event mutations leave the index as the constructor built
    it, so this stays true after any number of them. *)
Theorem arena_address_indexed name f m ops x y :
  Maze_init name f = Ok m →
  0 ≤ x < maze_width m → 0 ≤ y < maze_height m →
  address_tiles (after_ops m ops) = address_tiles m
  ∧ ∃ t, access_tile (after_ops m ops) (x, y) = Ok t
         ∧ (arena t ≠ "" →
            ∃ address,
              get_tile_path (after_ops m ops) (x, y) "arena" = Ok address
              ∧ (x, y) ∈ tiles_for_address (after_ops m ops) address).
Proof.
  intros Hinit Hx Hy.
  pose proof (reachable_ok name f m ops Hinit) as [Hshape Hidx].
  destruct (after_ops_static ops m) as (Hw & Hh & _ & Haddr).
  split; [done|].
  destruct (access_tile_inside (after_ops m ops) x y)
    as (row & t & Hrow & Ht & Hacc); [done|lia..|].
  exists t. split; [done|]. intros Harena.
  exists (arena_path t). split.
  - unfold get_tile_path. by rewrite Hacc.
  - destruct (Hidx _ _ _ _ Hrow Ht) as (_ & Ha & _).
    rewrite !Z2Nat.id in Ha by lia. apply Ha.
    by destruct (arena t).
Qed.

Lemma arena_address_indexed_witness :
  ∃ t, access_tile
         (after_ops town
            [AddEvent ("Town:park:bench:chessboard", Some "is",
                       Some "used", None) (1, 1);
             RemoveSubjectEvents "Town:park:bench:chessboard" (1, 1)])
         (1, 1) = Ok t
       ∧ (arena t ≠ "" →
          ∃ address,
            get_tile_path
              (after_ops town
                 [AddEvent ("Town:park:bench:chessboard", Some "is",
                            Some "used", None) (1, 1);
                  RemoveSubjectEvents "Town:park:bench:chessboard" (1, 1)])
              (1, 1) "arena" = Ok address
            ∧ (1, 1) ∈ tiles_for_address
                (after_ops town
                   [AddEvent ("Town:park:bench:chessboard", Some "is",
                              Some "used", None) (1, 1);
                    RemoveSubjectEvents "Town:park:bench:chessboard" (1, 1)])
                address).
Proof.
  apply (arena_address_indexed "the_ville" town_files town _ 1 1 eq_refl);
    simpl; lia.
Defined.

(** ** Events of a tile *)

(** C2, as stated, fails on a set that already holds the event: the
    chessboard tile of the town starts with its idle event; adding that
    very event and removing it again leaves the tile without it. *)
Lemma add_remove_present_event_in_town :
  access_tile town (1, 1) = Ok chessboard_tile
  ∧ chessboard_idle ∈ events chessboard_tile
  ∧ (m1 ← add_event_from_tile town chessboard_idle (1, 1);
     m2 ← remove_event_from_tile m1 chessboard_idle (1, 1);
     access_tile m2 (1, 1)) = Ok (set_events chessboard_tile ∅)
  ∧ events (set_events chessboard_tile ∅) ≠ events chessboard_tile.
Proof.
  split_and!.
  - reflexivity.
  - simpl. set_solver.
  - reflexivity.
  - simpl. set_solver.
Qed.

Lemma add_then_discard (evs : gset Event) e :
  (evs ∪ {[e]}) ∖ {[e]} = evs ∖ {[e]}.
Proof.
  apply set_eq. intros ev.
  rewrite !elem_of_difference, elem_of_union. tauto.
Qed.

Lemma discard_absent (evs : gset Event) e : e ∉ evs → evs ∖ {[e]} = evs.
Proof.
  intros Hnotin. apply set_eq. intros ev.
  rewrite elem_of_difference, elem_of_singleton.
  split; [tauto|]. intros Hev. split; [done|]. by intros ->.
Qed.

(** C2, amended: on a tile [access_tile] can read, adding an event and
    then removing it leaves the tile with its former events minus this
    event; when the event was not among them beforehand, the whole maze
    is exactly as it was before the addition. *)
Theorem add_then_remove_event m event tile t :
  access_tile m tile = Ok t →
  ∃ m1 m2 t2,
    add_event_from_tile m event tile = Ok m1
    ∧ remove_event_from_tile m1 event tile = Ok m2
    ∧ access_tile m2 tile = Ok t2
    ∧ events t2 = events t ∖ {[event]}
    ∧ (event ∉ events t → m2 = m).
Proof.
  intros Hacc.
  pose proof (update_events_twice m tile (λ evs, evs ∪ {[event]})
                (λ evs, evs ∖ {[event]}) t Hacc) as Htwice.
  unfold add_event_from_tile, remove_event_from_tile.
  rewrite (update_events_Ok m tile _ t Hacc) in Htwice |- *.
  simpl in Htwice. rewrite add_then_discard in Htwice.
  eexists _, _, _. split; [done|]. split; [exact Htwice|].
  split; [by eapply access_store_tile|]. split; [done|].
  intros Hnotin.
  rewrite discard_absent by done.
  assert (set_events t (events t) = t) as -> by (by destruct t).
  by apply store_tile_same.
Qed.

Lemma add_then_remove_event_witness :
  ∃ m1 m2 t2,
    add_event_from_tile town park_busy (0, 0) = Ok m1
    ∧ remove_event_from_tile m1 park_busy (0, 0) = Ok m2
    ∧ access_tile m2 (0, 0) = Ok t2
    ∧ events t2 = events park_tile ∖ {[ park_busy ]}
    ∧ (park_busy ∉ events park_tile → m2 = town).
Proof.
  apply (add_then_remove_event town park_busy (0, 0) park_tile).
  reflexivity.
Defined.

(** ** Nearby tiles *)

Section Comprehension.

Context (xs ys : list Z).

(** [[(i, j) for i in xs for j in ys]] *)
Lemma elem_of_pairs i j :
  (i, j) ∈ (a ← xs; b ← ys; [(a, b)]) ↔ i ∈ xs ∧ j ∈ ys.
Proof.
  rewrite list_elem_of_bind. split.
  - intros (a & (b & Hab & Hb)%list_elem_of_bind & Ha).
    apply list_elem_of_singleton in Hab as [= -> ->]. done.
  - intros [Hi Hj]. exists i. split; [|done].
    apply list_elem_of_bind. exists j. split; [|done].
    by apply list_elem_of_singleton.
Qed.

Lemma length_pairs :
  length (a ← xs; b ← ys; [(a, b)]) = (length xs * length ys)%nat.
Proof.
  assert (∀ a : Z, length (b ← ys; [(a, b)]) = length ys) as Hrow.
  { intros a. induction ys as [|b l IH]; [done|].
    rewrite bind_cons. simpl. by rewrite IH. }
  induction xs as [|a l IH]; [done|].
  rewrite bind_cons, length_app, IH, Hrow. simpl. lia.
Qed.

Lemma NoDup_pairs :
  NoDup xs → NoDup ys → NoDup (a ← xs; b ← ys; [(a, b)]).
Proof.
  intros Hxs Hys. apply NoDup_bind; [| |done].
  - intros a1 a2 [i j] _ _ (b1 & H1 & _)%list_elem_of_bind
      (b2 & H2 & _)%list_elem_of_bind.
    apply list_elem_of_singleton in H1, H2. congruence.
  - intros a _. apply NoDup_bind; [| |done].
    + intros b1 b2 [i j] _ _ H1 H2.
      apply list_elem_of_singleton in H1, H2. congruence.
    + intros b _. apply NoDup_singleton.
Qed.

End Comprehension.

(** C6: around an in-bounds center and for a radius [r ≥ 0],
    [get_nearby_tiles] lists, each once, exactly the coordinates of the
    square [[x-r, x+r] × [y-r, y+r]] that lie in the grid; the center is
    among them; there are at most [(2r+1)²] of them, and exactly that
    many when the square lies within the grid. *)
Theorem get_nearby_tiles_square m x y r :
  0 ≤ x < maze_width m → 0 ≤ y < maze_height m → 0 ≤ r →
  (∀ i j, (i, j) ∈ get_nearby_tiles m (x, y) r ↔
          (x - r ≤ i ≤ x + r ∧ y - r ≤ j ≤ y + r)
          ∧ (0 ≤ i < maze_width m ∧ 0 ≤ j < maze_height m))
  ∧ NoDup (get_nearby_tiles m (x, y) r)
  ∧ (x, y) ∈ get_nearby_tiles m (x, y) r
  ∧ Z.of_nat (length (get_nearby_tiles m (x, y) r)) ≤ (2 * r + 1) ^ 2
  ∧ (0 ≤ x - r → x + r < maze_width m →
     0 ≤ y - r → y + r < maze_height m →
     Z.of_nat (length (get_nearby_tiles m (x, y) r)) = (2 * r + 1) ^ 2).
Proof.
  intros Hx Hy Hr. unfold get_nearby_tiles.
  assert (∀ i j,
    (i, j) ∈ (a ← Py.range (0 `max` (x - r))
                     (maze_width m `min` (x + r + 1));
              b ← Py.range (0 `max` (y - r))
                     (maze_height m `min` (y + r + 1));
              [(a, b)]) ↔
    (x - r ≤ i ≤ x + r ∧ y - r ≤ j ≤ y + r)
    ∧ (0 ≤ i < maze_width m ∧ 0 ≤ j < maze_height m)) as Hmem.
  { intros i j. rewrite elem_of_pairs, !elem_of_range. lia. }
  split_and!.
  - exact Hmem.
  - apply NoDup_pairs; apply NoDup_range.
  - apply Hmem. lia.
  - rewrite length_pairs, !length_range. nia.
  - intros Hx0 Hx1 Hy0 Hy1. rewrite length_pairs, !length_range.
    rewrite Z.max_r, !Z.min_r by lia.
    rewrite Z.max_r by lia. nia.
Qed.

Lemma get_nearby_tiles_square_witness :
  (1, 1) ∈ get_nearby_tiles town (1, 1) 1
  ∧ Z.of_nat (length (get_nearby_tiles town (1, 1) 1)) = (2 * 1 + 1) ^ 2.
Proof.
  destruct (get_nearby_tiles_square town 1 1 1)
    as (_ & _ & Hcenter & _ & Hfull); [simpl; lia..|].
  split; [exact Hcenter|]. apply Hfull; simpl; lia.
Defined.

(** ** Sizes of the layers *)

Lemma build_tile_Raise f idx e : build_tile f idx = Raise e → e = IndexError.
Proof.
  unfold build_tile.
  destruct (getitem_cases (sector_raw f) idx) as [[s ->]| ->]; simpl;
    [|congruence].
  destruct (getitem_cases (arena_raw f) idx) as [[a ->]| ->]; simpl;
    [|congruence].
  destruct (getitem_cases (object_raw f) idx) as [[o ->]| ->]; simpl;
    [|congruence].
  destruct (getitem_cases (spawn_raw f) idx) as [[sp ->]| ->]; simpl;
    [|congruence].
  destruct (getitem_cases (collision_raw f) idx) as [[c ->]| ->]; simpl;
    congruence.
Qed.

Lemma build_tile_Ok_iff f idx :
  0 ≤ idx →
  (∃ t, build_tile f idx = Ok t) ↔
  ∀ layer, layer ∈ layers f → idx < Z.of_nat (length layer).
Proof.
  intros Hidx. unfold layers. split.
  - intros [t Ht] layer Hlayer. unfold build_tile in Ht.
    assert (∀ l : list string,
              Py.getitem l idx ≠ Raise IndexError →
              idx < Z.of_nat (length l)) as Hlt.
    { intros l Hl. rewrite getitem_Raise in Hl. lia. }
    destruct (Py.getitem (sector_raw f) idx) eqn:Hs; simpl in Ht; [|done].
    destruct (Py.getitem (arena_raw f) idx) eqn:Ha; simpl in Ht; [|done].
    destruct (Py.getitem (object_raw f) idx) eqn:Ho; simpl in Ht; [|done].
    destruct (Py.getitem (spawn_raw f) idx) eqn:Hsp; simpl in Ht; [|done].
    destruct (Py.getitem (collision_raw f) idx) eqn:Hc; simpl in Ht; [|done].
    repeat (apply elem_of_cons in Hlayer as [->|Hlayer]);
      [apply Hlt; congruence..|].
    by apply elem_of_nil in Hlayer.
  - intros Hall. unfold build_tile.
    assert (∀ l : list string, l ∈ layers f → ∃ a, Py.getitem l idx = Ok a)
      as Hget.
    { intros l Hl. destruct (getitem_nonneg l idx) as (a & _ & Ha);
        [split; [done|by apply Hall]|]. eauto. }
    unfold layers in Hget.
    destruct (Hget (sector_raw f)) as [s ->]; [by repeat constructor|].
    destruct (Hget (arena_raw f)) as [a ->]; [by repeat constructor|].
    destruct (Hget (object_raw f)) as [o ->]; [by repeat constructor|].
    destruct (Hget (spawn_raw f)) as [sp ->]; [by repeat constructor|].
    destruct (Hget (collision_raw f)) as [c ->]; [by repeat constructor|].
    simpl. eauto.
Qed.

Lemma init_cell_Raise f y st x e : init_cell f y st x = Raise e → e = IndexError.
Proof.
  unfold init_cell.
  destruct (build_tile f _) as [t|e'] eqn:Ht; simpl; [done|].
  intros [= <-]. by eapply build_tile_Raise.
Qed.

Lemma init_row_Raise f st y e : init_row f st y = Raise e → e = IndexError.
Proof.
  unfold init_row.
  destruct (Py.for_each _ _ _) as [r|e'] eqn:Hr; simpl; [done|].
  intros [= <-].
  eapply for_each_Raise; [|exact Hr].
  intros x s1 e1. apply init_cell_Raise.
Qed.

Lemma Maze_init_Raise name f e : Maze_init name f = Raise e → e = IndexError.
Proof.
  unfold Maze_init.
  destruct (Py.for_each _ _ _) as [g|e'] eqn:Hg; simpl; [done|].
  intros [= <-].
  eapply for_each_Raise; [|exact Hg].
  intros y s1 e1. apply init_row_Raise.
Qed.

(** The constructor runs to its end exactly when it can build the tile
    of every cell. *)
Lemma Maze_init_Ok_iff name f :
  (∃ m, Maze_init name f = Ok m) ↔
  ∀ x y, 0 ≤ x < meta_maze_width f → 0 ≤ y < meta_maze_height f →
         ∃ t, build_tile f (y * meta_maze_width f + x) = Ok t.
Proof.
  split.
  - intros [m (g & Hg & _)%Maze_init_Ok] x y Hx Hy.
    destruct (for_each_Ok_body _ _ _ _ Hg y) as (s1 & s2 & Hrow);
      [by apply elem_of_range|].
    apply init_row_Ok in Hrow as (r & Hr & _).
    destruct (for_each_Ok_body _ _ _ _ Hr x) as (r1 & r2 & Hcell);
      [by apply elem_of_range|].
    apply init_cell_Ok in Hcell as (t & Ht & _). eauto.
  - intros Hall. unfold Maze_init.
    destruct (for_each_total (init_row f) (Py.range 0 (meta_maze_height f))
                ([], ∅)) as [g ->]; [|simpl; eauto].
    intros y s1 Hy%elem_of_range. unfold init_row.
    destruct (for_each_total (init_cell f y)
                (Py.range 0 (meta_maze_width f)) ([], s1.2)) as [r ->];
      [|simpl; eauto].
    intros x r1 Hx%elem_of_range. unfold init_cell.
    destruct (Hall x y) as [t ->]; [lia..|]. simpl. eauto.
Qed.



(** ** The tick of a persona *)


Section Tick.

Context {MemoryTree AssociativeMemory ScratchRest Env : Type}.
Context {MazeT Personas Perceived Retrieved PlanResult Action : Type}.

Context (perceive :
  MazeT →
  @Collaborator MemoryTree AssociativeMemory ScratchRest Env Perceived).
Context (retrieve :
  Perceived →
  @Collaborator MemoryTree AssociativeMemory ScratchRest Env Retrieved).
Context (plan :
  MazeT → Personas → NewDay → Retrieved →
  @Collaborator MemoryTree AssociativeMemory ScratchRest Env PlanResult).
Context (reflect :
  @Collaborator MemoryTree AssociativeMemory ScratchRest Env unit).
Context (execute :
  MazeT → Personas → PlanResult →
  @Collaborator MemoryTree AssociativeMemory ScratchRest Env Action).


(** When plan raises, the tick ends on the heap plan left: nothing ran
    after it. The flag plan is given is the one computed from the time
    stored before the tick. *)
Lemma move_stops_at_plan maze personas tile time h p h1 rt h2 e h3 :
  perceive maze (set_curr_time time (set_curr_tile tile h)) = (Ok p, h1) →
  retrieve p h1 = (Ok rt, h2) →
  plan maze personas
    (detect_new_day (curr_time (scratch (self h))) time) rt h2
  = (Raise e, h3) →
  run_move perceive retrieve plan reflect execute maze personas tile time h
  = (Raise e, h3, [Returned Perceive; Returned Retrieve; Raised Plan e]).
Proof.
  intros Hperceive Hretrieve Hplan.
  unfold run_move, move, tick_bind, tick_modify, tick_get, call. simpl.
  by rewrite Hperceive, Hretrieve, Hplan.
Qed.




End Tick.



(** ** The day flag *)

(** Case analysis on an integer known to lie among [n] consecutive
    values starting at [lo]. *)
Ltac enum_Z x lo n :=
  lazymatch n with
  | O => exfalso; lia
  | S ?n' =>
      let lo' := eval compute in (lo + 1) in
      destruct (Z.eq_dec x lo) as [->|?]; [|enum_Z x lo' n']
  end.

Lemma weekday_range d : 0 ≤ datetime.weekday d < 7.
Proof. unfold datetime.weekday. apply Z.mod_pos_bound. lia. Qed.

Lemma days_in_month_le y m : datetime.days_in_month y m ≤ 31.
Proof.
  unfold datetime.days_in_month.
  destruct m as [|[[[[|[]|]|[[]|[]|]|]|[[[]|[]|]|[[]|[]|]|]|]
                  |[[[|[]|]|[[]|[]|]|]|[[[]|[]|]|[[]|[]|]|]|]|]|];
    try destruct (datetime.is_leap y); lia.
Qed.

Lemma valid_month_day d :
  datetime.valid d = true →
  1 ≤ datetime.month d ≤ 12 ∧ 1 ≤ datetime.day d ≤ 31.
Proof.
  unfold datetime.valid. rewrite !andb_true_iff, !Z.leb_le.
  pose proof (days_in_month_le (datetime.year d) (datetime.month d)). lia.
Qed.

Lemma day_name_inj w1 w2 s1 s2 :
  0 ≤ w1 < 7 → 0 ≤ w2 < 7 →
  datetime.day_name w1 +:+ " " +:+ s1 = datetime.day_name w2 +:+ " " +:+ s2 →
  w1 = w2 ∧ s1 = s2.
Proof.
  intros H1 H2.
  enum_Z w1 0 7%nat; enum_Z w2 0 7%nat; simpl; intros Heq;
    first [discriminate Heq | by injection Heq].
Qed.

Lemma month_name_inj m1 m2 s1 s2 :
  1 ≤ m1 ≤ 12 → 1 ≤ m2 ≤ 12 →
  datetime.month_name m1 +:+ " " +:+ s1
  = datetime.month_name m2 +:+ " " +:+ s2 →
  m1 = m2 ∧ s1 = s2.
Proof.
  intros H1 H2.
  enum_Z m1 1 12%nat; enum_Z m2 1 12%nat; simpl; intros Heq;
    first [discriminate Heq | by injection Heq].
Qed.

Lemma digit_inj a b :
  0 ≤ a ≤ 9 → 0 ≤ b ≤ 9 → datetime.digit a = datetime.digit b → a = b.
Proof.
  intros Ha Hb.
  enum_Z a 0 10%nat; enum_Z b 0 10%nat; simpl; intros Heq;
    first [discriminate Heq | done].
Qed.

Lemma pad2_inj a b :
  0 ≤ a < 100 → 0 ≤ b < 100 → datetime.pad2 a = datetime.pad2 b → a = b.
Proof.
  intros Ha Hb. unfold datetime.pad2. intros [= Htens Hunits].
  pose proof (Z.mod_pos_bound a 10). pose proof (Z.mod_pos_bound b 10).
  assert (0 ≤ a / 10 ≤ 9 ∧ 0 ≤ b / 10 ≤ 9) as [Hqa Hqb].
  { split; (split; [apply Z.div_pos; lia|]);
      apply Z.lt_succ_r, Z.div_lt_upper_bound; lia. }
  apply digit_inj in Htens, Hunits; [|lia..].
  rewrite (Z.div_mod a 10), (Z.div_mod b 10) by lia. lia.
Qed.

(** What the formatted date tells apart: the weekday, the month and the
    day of the month, and nothing else. *)
Lemma strftime_A_B_d_eq a b :
  datetime.valid a = true → datetime.valid b = true →
  datetime.strftime_A_B_d a = datetime.strftime_A_B_d b ↔
  datetime.weekday a = datetime.weekday b
  ∧ datetime.month a = datetime.month b
  ∧ datetime.day a = datetime.day b.
Proof.
  intros [Hma Hda]%valid_month_day [Hmb Hdb]%valid_month_day.
  unfold datetime.strftime_A_B_d. split.
  - intros Heq.
    apply day_name_inj in Heq as [Hw Heq]; [|apply weekday_range..].
    apply month_name_inj in Heq as [Hm Heq]; [|done..].
    apply pad2_inj in Heq; [done|lia..].
  - by intros (-> & -> & ->).
Qed.

Lemma detect_new_day_flag a b :
  datetime.valid a = true → datetime.valid b = true →
  detect_new_day (Some a) b
  = if decide (datetime.weekday a = datetime.weekday b
               ∧ datetime.month a = datetime.month b
               ∧ datetime.day a = datetime.day b)
    then new_day_False else New_day.
Proof.
  intros Ha Hb. unfold detect_new_day.
  pose proof (strftime_A_B_d_eq a b Ha Hb) as Heq.
  repeat case_decide; tauto.
Qed.

(** The first tick of a persona, which has no time stored. *)
Lemma detect_new_day_first t : detect_new_day None t = First_day.
Proof. done. Qed.

(** Two times on the same calendar day. *)
Lemma detect_new_day_same_date a b :
  datetime.date a = datetime.date b →
  detect_new_day (Some a) b = new_day_False.
Proof.
  intros [= Hy Hm Hd]. unfold detect_new_day, datetime.strftime_A_B_d,
    datetime.weekday, datetime.toordinal.
  rewrite Hy, Hm, Hd. by rewrite decide_False by (by intros []).
Qed.

(** Two days of the same year are told apart. *)
Lemma detect_new_day_same_year a b :
  datetime.valid a = true → datetime.valid b = true →
  datetime.year a = datetime.year b →
  datetime.date a ≠ datetime.date b →
  detect_new_day (Some a) b = New_day.
Proof.
  intros Ha Hb Hy Hne. rewrite detect_new_day_flag by done.
  rewrite decide_False; [done|].
  intros (_ & Hm & Hd). apply Hne. unfold datetime.date. congruence.
Qed.

(** So are two days less than a week apart, the next day among them. *)
Lemma detect_new_day_within_a_week a b :
  datetime.valid a = true → datetime.valid b = true →
  0 < datetime.toordinal b - datetime.toordinal a < 7 →
  detect_new_day (Some a) b = New_day.
Proof.
  intros Ha Hb Hdiff. rewrite detect_new_day_flag by done.
  rewrite decide_False; [done|].
  intros (Hw & _). unfold datetime.weekday in Hw.
  assert ((datetime.toordinal b - datetime.toordinal a) mod 7 = 0) as Hmod.
  { replace (datetime.toordinal b - datetime.toordinal a)
      with ((datetime.toordinal b + 6) - (datetime.toordinal a + 6)) by lia.
    rewrite Zminus_mod, Hw, Z.sub_diag. done. }
  rewrite Z.mod_small in Hmod by lia. lia.
Qed.

(** C4 fails on the code: 1 January 2017 and 1 January 2023 are
    different calendar days, both a "Sunday January 01". A persona whose
    stored time is the former and whose tick comes at the latter plans
    with the flag [False] (no signal), not with "New day". *)
Lemma move_new_day_blind_to_year :
  datetime.valid new_year_2017 = true
  ∧ datetime.valid new_year_2023 = true
  ∧ datetime.date new_year_2017 ≠ datetime.date new_year_2023
  ∧ datetime.strftime_A_B_d new_year_2017 = "Sunday January 01"
  ∧ datetime.strftime_A_B_d new_year_2023 = "Sunday January 01"
  ∧ detect_new_day (Some new_year_2017) new_year_2023 = new_day_False
  ∧ (run_move stub_perceive stub_retrieve stub_plan stub_reflect
       stub_execute tt tt (1, 1) new_year_2023
       (stub_heap (Some new_year_2017))).1.1
    = Ok new_day_False.
Proof. split_and!; try reflexivity. discriminate. Qed.

(** ** Pixels to tiles

    The quotient [px / sq_tile_size] is a double. The lemmas below
    follow the division of the Standard Library's [SpecFloat] on two
    integers below [2^53]: the quotient of the mantissas has 53 or 54
    bits, at most one bit is shifted out, and the rounded mantissa lies
    strictly between the same two integers as the exact quotient,
    unless the division is exact. *)

Lemma digits2_pos_bounds p :
  2 ^ (Zpos (digits2_pos p) - 1) ≤ Zpos p < 2 ^ Zpos (digits2_pos p).
Proof.
  induction p as [p IH|p IH|]; simpl digits2_pos.
  - rewrite Pos2Z.inj_succ.
    replace (Z.succ (Zpos (digits2_pos p)) - 1) with (Zpos (digits2_pos p)) by lia.
    rewrite Z.pow_succ_r by lia.
    replace (Zpos (digits2_pos p)) with (Z.succ (Zpos (digits2_pos p) - 1)) at 1 by lia.
    rewrite Z.pow_succ_r by lia. lia.
  - rewrite Pos2Z.inj_succ.
    replace (Z.succ (Zpos (digits2_pos p)) - 1) with (Zpos (digits2_pos p)) by lia.
    rewrite Z.pow_succ_r by lia.
    replace (Zpos (digits2_pos p)) with (Z.succ (Zpos (digits2_pos p) - 1)) at 1 by lia.
    rewrite Z.pow_succ_r by lia. lia.
  - simpl. lia.
Qed.

Lemma digits2_pos_unique p n :
  2 ^ (n - 1) ≤ Zpos p < 2 ^ n → Zpos (digits2_pos p) = n.
Proof.
  intros [Hlo Hhi]. pose proof (digits2_pos_bounds p) as [Dlo Dhi].
  assert (0 < n).
  { destruct (Z.lt_ge_cases 0 n); [done|].
    destruct (Z.eq_dec n 0) as [->|]; [simpl in Hhi; lia|].
    rewrite Z.pow_neg_r in Hhi by lia. lia. }
  destruct (Z.lt_trichotomy (Zpos (digits2_pos p)) n) as [Hlt|[Heq|Hgt]];
    [|done|].
  - assert (2 ^ Zpos (digits2_pos p) ≤ 2 ^ (n - 1))
      by (apply Z.pow_le_mono_r; lia). lia.
  - assert (2 ^ n ≤ 2 ^ (Zpos (digits2_pos p) - 1))
      by (apply Z.pow_le_mono_r; lia). lia.
Qed.

Lemma new_location_Exact nb k : new_location nb k = loc_Exact ↔ k = 0.
Proof.
  unfold new_location, new_location_even, new_location_odd.
  destruct (Z.even nb), (Z.eqb_spec k 0); split; try done.
Qed.

Lemma shr_1_spec m r s :
  0 ≤ m →
  shr_1 (Build_shr_record m r s)
  = Build_shr_record (m / 2) (Z.odd m) (r || s).
Proof.
  intros Hm. destruct m as [|[p|p|]|p]; try lia; simpl; try done.
  - f_equal. rewrite Pos2Z.pos_xI.
    rewrite (Z.mul_comm 2), Z.div_add_l by lia. done.
  - f_equal. rewrite Pos2Z.pos_xO.
    rewrite (Z.mul_comm 2), Z.div_mul by lia. done.
Qed.

Lemma loc_of_shr_record_of_loc m l :
  loc_of_shr_record (shr_record_of_loc m l) = l.
Proof. by destruct l as [|[]]. Qed.

Lemma shr_m_record_of_loc m l : shr_m (shr_record_of_loc m l) = m.
Proof. by destruct l as [|[]]. Qed.

Lemma round_nearest_even_cases m l :
  round_nearest_even m l = m ∨ round_nearest_even m l = m + 1.
Proof. destruct l as [|[]]; simpl; auto. destruct (Z.even m); auto. Qed.

(** The last step of [binary_round_aux] on a mantissa of 53 bits, or
    on [2^53]: the value is kept. *)
Lemma round_finish sx M1 e :
  2 ^ 52 ≤ M1 ≤ 2 ^ 53 → -1000 ≤ e ≤ 0 →
  ∃ M E,
    (let '(mrs, e'') := shr_fexp 53 1024 M1 e loc_Exact in
     match shr_m mrs with
     | Z0 => S754_zero sx
     | Zpos m =>
         if e'' <=? 1024 - 53 then S754_finite sx m e''
         else S754_infinity sx
     | Zneg _ => S754_nan
     end) = S754_finite sx M E
    ∧ e ≤ E ∧ Zpos M * 2 ^ (E - e) = M1.
Proof.
  intros HM He.
  destruct M1 as [|p|p]; [simpl in HM; lia| |lia].
  unfold shr_fexp, fexp, emin. simpl Zdigits2.
  destruct (Z.eq_dec (Zpos p) (2 ^ 53)) as [Heq|Hne].
  - rewrite (digits2_pos_unique p 54) by (rewrite Heq; simpl; lia).
    replace (Z.max (54 + e - 53) (3 - 1024 - 53) - e) with 1 by lia.
    unfold shr, shr_record_of_loc, iter_pos.
    rewrite shr_1_spec by lia. unfold shr_m.
    replace (Zpos p / 2) with (Zpos 4503599627370496)
      by (rewrite Heq; reflexivity).
    exists 4503599627370496%positive, (e + 1). split.
    + destruct (Z.leb_spec (e + 1) (1024 - 53)); [reflexivity|lia].
    + split; [lia|]. replace (e + 1 - e) with 1 by lia.
      rewrite Heq. reflexivity.
  - rewrite (digits2_pos_unique p 53) by (simpl in *; lia).
    replace (Z.max (53 + e - 53) (3 - 1024 - 53) - e) with 0 by lia.
    simpl. exists p, e. split.
    + destruct (Z.leb_spec e (1024 - 53)); [reflexivity|lia].
    + split; [lia|]. rewrite Z.sub_diag. simpl. lia.
Qed.

(** The first step of [binary_round_aux] on a quotient of 53 or 54
    bits: nothing or one bit is shifted out, and the mantissa is
    rounded. *)
Lemma round_first q e l :
  2 ^ 52 ≤ q < 2 ^ 54 → -1000 ≤ e ≤ 0 →
  ∃ mrs n,
    shr_fexp 53 1024 q e l = (mrs, e + n)
    ∧ ((n = 0 ∧ shr_m mrs = q ∧ loc_of_shr_record mrs = l ∧ q < 2 ^ 53)
       ∨ (n = 1 ∧ shr_m mrs = q / 2
          ∧ (Z.odd q = true → l ≠ loc_Exact →
             loc_of_shr_record mrs = loc_Inexact Gt)
          ∧ (Z.odd q = false →
             loc_of_shr_record mrs = loc_Exact
             ∨ loc_of_shr_record mrs = loc_Inexact Lt)
          ∧ 2 ^ 53 ≤ q)).
Proof.
  intros Hq He.
  destruct q as [|p|p]; [simpl in Hq; lia| |lia].
  unfold shr_fexp, fexp, emin. simpl Zdigits2.
  destruct (Z.lt_ge_cases (Zpos p) (2 ^ 53)) as [Hlt|Hge].
  - rewrite (digits2_pos_unique p 53) by (simpl in *; lia).
    replace (Z.max (53 + e - 53) (3 - 1024 - 53) - e) with 0 by lia.
    exists (shr_record_of_loc (Zpos p) l), 0. simpl shr.
    split; [by rewrite Z.add_0_r|]. left.
    by rewrite shr_m_record_of_loc, loc_of_shr_record_of_loc.
  - rewrite (digits2_pos_unique p 54) by (simpl in *; lia).
    replace (Z.max (54 + e - 53) (3 - 1024 - 53) - e) with 1 by lia.
    exists (shr_1 (shr_record_of_loc (Zpos p) l)), 1.
    split; [done|]. right. split; [done|].
    destruct l as [|[]]; unfold shr_record_of_loc;
      rewrite shr_1_spec by lia; simpl shr_m; simpl orb;
      (split; [done|]); unfold loc_of_shr_record;
      destruct (Z.odd (Zpos p)); split_and!; auto; done.
Qed.

Lemma digits2_pos_le p n : 0 ≤ n → Zpos p < 2 ^ n → Zpos (digits2_pos p) ≤ n.
Proof.
  intros Hn Hp. pose proof (digits2_pos_bounds p) as [Dlo _].
  destruct (Z.le_gt_cases (Zpos (digits2_pos p)) n) as [|Hgt]; [done|].
  assert (2 ^ n ≤ 2 ^ (Zpos (digits2_pos p) - 1))
    by (apply Z.pow_le_mono_r; lia).
  lia.
Qed.

Lemma quotient_bounds m1 m2 P q r N R :
  0 < m2 < P → m1 = m2 * N + R → 0 ≤ R < m2 →
  m1 * P = m2 * q + r → 0 ≤ r < m2 →
  (R = 0 → q = N * P ∧ r = 0)
  ∧ (R ≠ 0 → N * P + 1 ≤ q ≤ (N + 1) * P - 2 ∧ (q = N * P + 1 → r ≠ 0)).
Proof.
  intros Hm2 -> HR Hq Hr.
  assert (m2 * (q - N * P) = R * P - r) as Heq by lia.
  split.
  - intros ->.
    assert (q - N * P = 0) by nia. split; nia.
  - intros HRne.
    assert (m2 < R * P) by nia.
    assert (R * P ≤ (m2 - 1) * P) by nia.
    split_and!.
    + assert (0 < q - N * P) by nia. lia.
    + assert (m2 * (q - N * P) < m2 * (P - 1)) by nia.
      assert (q - N * P < P - 1) by nia. lia.
    + intros Hq1 ->. replace (q - N * P) with 1 in Heq by lia. nia.
Qed.

Lemma truediv_core (p1 p2 : positive) sx :
  Zpos p1 < 2 ^ 53 → Zpos p2 < 2 ^ 53 →
  ∃ M E t,
    (let '(mz, ez, lz) :=
       SFdiv_core_binary 53 1024 (Zpos p1) 0 (Zpos p2) 0 in
     binary_round_aux 53 1024 sx mz ez lz) = S754_finite sx M E
    ∧ 0 ≤ t ∧ - t ≤ E
    ∧ (Zpos p1 mod Zpos p2 = 0 →
       Zpos M * 2 ^ (E + t) = Zpos p1 / Zpos p2 * 2 ^ t)
    ∧ (Zpos p1 mod Zpos p2 ≠ 0 →
       Zpos p1 / Zpos p2 * 2 ^ t < Zpos M * 2 ^ (E + t)
       < (Zpos p1 / Zpos p2 + 1) * 2 ^ t).
Proof.
  intros H1 H2.
  pose proof (digits2_pos_bounds p1) as [D1lo D1hi].
  pose proof (digits2_pos_bounds p2) as [D2lo D2hi].
  pose proof (digits2_pos_le p1 53 ltac:(lia) H1) as D1le.
  pose proof (digits2_pos_le p2 53 ltac:(lia) H2) as D2le.
  unfold SFdiv_core_binary, fexp, emin.
  change (Zdigits2 (Zpos p1)) with (Zpos (digits2_pos p1)).
  change (Zdigits2 (Zpos p2)) with (Zpos (digits2_pos p2)).
  set (m1 := Zpos p1) in *. set (m2 := Zpos p2) in *.
  set (d1 := Zpos (digits2_pos p1)) in *.
  set (d2 := Zpos (digits2_pos p2)) in *.
  assert (0 < m1 ∧ 0 < m2 ∧ 0 < d1 ∧ 0 < d2) as (Hm1 & Hm2 & Hd1 & Hd2)
    by (unfold m1, m2, d1, d2; lia).
  clearbody m1 m2 d1 d2.
  replace (Z.min (Z.max (d1 + 0 - (d2 + 0) - 53) (3 - 1024 - 53)) (0 - 0))
    with (d1 - d2 - 53) by lia.
  remember (53 + d2 - d1) as s eqn:Hs.
  replace (0 - 0 - (d1 - d2 - 53)) with s by lia.
  destruct s as [|ps|ps] eqn:Es; [lia| |lia]. rewrite <- Es in *.
  clear ps Es.
  rewrite Z.shiftl_mul_pow2 by lia.
  (* the quotient *)
  pose proof (Z.div_mod (m1 * 2 ^ s) m2 ltac:(lia)) as Hdiv.
  pose proof (Z.mod_pos_bound (m1 * 2 ^ s) m2 ltac:(lia)) as Hrem.
  unfold Z.div, Z.modulo in Hdiv, Hrem.
  destruct (Z.div_eucl (m1 * 2 ^ s) m2) as [q r].
  (* powers of two *)
  assert (2 ^ s * 2 ^ (d1 - 1) = 2 ^ 52 * 2 ^ d2) as Hpow.
  { rewrite <- !Z.pow_add_r by lia. f_equal. lia. }
  assert (2 ^ d1 = 2 * 2 ^ (d1 - 1)) as Hd1'.
  { rewrite <- Z.pow_succ_r by lia. f_equal. lia. }
  assert (2 ^ d2 = 2 * 2 ^ (d2 - 1)) as Hd2'.
  { rewrite <- Z.pow_succ_r by lia. f_equal. lia. }
  assert (2 ^ d2 ≤ 2 ^ s) as Hsd2 by (apply Z.pow_le_mono_r; lia).
  assert (2 ^ s = 2 * 2 ^ (s - 1)) as Hs'.
  { rewrite <- Z.pow_succ_r by lia. f_equal. lia. }
  pose proof (Z.pow_pos_nonneg 2 (s - 1) ltac:(lia) ltac:(lia)) as Hpos.
  pose proof (Z.pow_pos_nonneg 2 (d1 - 1) ltac:(lia) ltac:(lia)) as Hpos1.
  pose proof (Z.pow_pos_nonneg 2 (d2 - 1) ltac:(lia) ltac:(lia)) as Hpos2.
  set (P := 2 ^ s) in *. set (A1 := 2 ^ (d1 - 1)) in *.
  set (A2 := 2 ^ (d2 - 1)) in *. set (T := 2 ^ (s - 1)) in *.
  assert (2 ^ 52 ≤ q < 2 ^ 54) as Hq.
  { change (2 ^ 52) with 4503599627370496 in *.
    change (2 ^ 54) with 18014398509481984.
    rewrite Hd1' in D1hi. rewrite Hd2' in D2hi, Hpow. split; nia. }
  assert (0 < m2 < P) as HmP by lia.
  pose proof (Z.div_mod m1 m2 ltac:(lia)) as HN.
  pose proof (Z.mod_pos_bound m1 m2 ltac:(lia)) as HR.
  set (N := m1 / m2) in *. set (R := m1 mod m2) in *.
  destruct (quotient_bounds m1 m2 P q r N R HmP HN HR Hdiv Hrem)
    as [Hexact Hinexact].
  (* the two roundings *)
  destruct (round_first q (d1 - d2 - 53) (new_location m2 r) Hq
              ltac:(lia)) as (mrs & n & Hfirst & Hn).
  unfold binary_round_aux. rewrite Hfirst.
  set (M1 := round_nearest_even (shr_m mrs) (loc_of_shr_record mrs)).
  assert (2 ^ 52 ≤ M1 ≤ 2 ^ 53
          ∧ 0 ≤ n ≤ 1
          ∧ (R = 0 → M1 = N * 2 ^ (s - n))
          ∧ (R ≠ 0 → N * 2 ^ (s - n) < M1 < (N + 1) * 2 ^ (s - n)))
    as (HM1 & Hn01 & HM1exact & HM1inexact).
  { unfold M1. clear M1. pose proof (Zmod_odd q) as Hodd.
    pose proof (Z.div_mod q 2 ltac:(lia)) as Hhalf.
    pose proof (Z.mod_pos_bound q 2 ltac:(lia)) as Hbit.
    change (2 ^ 52) with 4503599627370496 in *.
    change (2 ^ 53) with 9007199254740992 in *.
    change (2 ^ 54) with 18014398509481984 in *.
    destruct Hn as [(-> & -> & -> & Hq53)|(-> & -> & Hgt & Hle & Hq53)].
    - rewrite Z.sub_0_r. fold P.
      pose proof (round_nearest_even_cases q (new_location m2 r)) as Hrne.
      split_and!; [lia..| |].
      + intros HR0. destruct (Hexact HR0) as [-> ->].
        by rewrite (proj2 (new_location_Exact m2 0)).
      + intros HRne. destruct (Hinexact HRne) as [Hqb _]. lia.
    - fold T.
      assert (∀ l, l = loc_Exact ∨ l = loc_Inexact Lt →
                   round_nearest_even (q / 2) l = q / 2) as Hdown
        by (by intros l [-> | ->]).
      assert (round_nearest_even (q / 2) (loc_Inexact Gt) = q / 2 + 1)
        as Hup by done.
      pose proof (round_nearest_even_cases (q / 2) (loc_of_shr_record mrs))
        as Hrne.
      split_and!; [lia..| |].
      + intros HR0. destruct (Hexact HR0) as [Hq0 ->].
        destruct (Z.odd q); [lia|].
        rewrite Hdown by auto. lia.
      + intros HRne. destruct (Hinexact HRne) as [Hqb Hq1].
        destruct (Z.odd q) eqn:Eodd.
        * destruct (Z.eq_dec r 0) as [Hr0|Hr0].
          -- assert (q ≠ N * P + 1) by tauto. lia.
          -- rewrite Hgt, Hup; [lia|done|].
             by rewrite new_location_Exact.
        * rewrite Hdown by auto. lia. }
  destruct (round_finish sx M1 (d1 - d2 - 53 + n) HM1 ltac:(lia))
    as (M & E & -> & HE & Hval).
  exists M, E, (s - n).
  replace (E + (s - n)) with (E - (d1 - d2 - 53 + n)) by lia.
  rewrite Hval. split_and!; [done|lia|lia|done|done].
Qed.

Lemma div_between W D N : 0 < D → N * D ≤ W < (N + 1) * D → W / D = N.
Proof.
  intros HD HW. symmetry. apply (Z.div_unique W D N (W - N * D)); lia.
Qed.

(** [ceil_scaled v e] on a value given with a larger denominator. *)
Lemma ceil_scaled_rescale v e t :
  0 ≤ t → - t ≤ e →
  Py.ceil_scaled v e = - ((- (v * 2 ^ (e + t))) / 2 ^ t).
Proof.
  intros Ht He. unfold Py.ceil_scaled.
  pose proof (Z.pow_pos_nonneg 2 t ltac:(lia) Ht) as Hpos.
  destruct (Z.leb_spec 0 e) as [Hnonneg|Hneg].
  - rewrite Z.pow_add_r by lia.
    replace (- (v * (2 ^ e * 2 ^ t))) with (- (v * 2 ^ e) * 2 ^ t) by ring.
    rewrite Z.div_mul by lia. by rewrite Z.opp_involutive.
  - replace (2 ^ t) with (2 ^ (- e + (e + t))) by (f_equal; lia).
    rewrite (Z.pow_add_r 2 (- e) (e + t)) by lia.
    pose proof (Z.pow_pos_nonneg 2 (- e) ltac:(lia) ltac:(lia)).
    pose proof (Z.pow_pos_nonneg 2 (e + t) ltac:(lia) ltac:(lia)).
    replace (- (v * 2 ^ (e + t))) with (- v * 2 ^ (e + t)) by ring.
    rewrite Z.div_mul_cancel_r by lia. done.
Qed.

(** Ceiling and floor of a positive quotient, from its integer part and
    remainder. *)
Lemma ceil_div_pos m1 m2 :
  0 < m2 →
  ceil_div m1 m2 = if decide (m1 mod m2 = 0) then m1 / m2 else m1 / m2 + 1.
Proof.
  intros Hm2. unfold ceil_div.
  pose proof (Z.div_mod m1 m2 ltac:(lia)) as Hdiv.
  pose proof (Z.mod_pos_bound m1 m2 Hm2) as Hrem.
  case_decide as HR.
  - rewrite (div_between (- m1) m2 (- (m1 / m2))); lia.
  - rewrite (div_between (- m1) m2 (- (m1 / m2 + 1))); lia.
Qed.

Lemma math_ceil_truediv_pos (p1 p2 : positive) (s1 s2 : bool) :
  Zpos p1 < 2 ^ 53 → Zpos p2 < 2 ^ 53 →
  ∃ M E,
    SFdiv 53 1024 (S754_finite s1 p1 0) (S754_finite s2 p2 0)
    = S754_finite (xorb s1 s2) M E
    ∧ Py.math_ceil (S754_finite (xorb s1 s2) M E)
      = Ok (if xorb s1 s2 then - (Zpos p1 / Zpos p2)
            else ceil_div (Zpos p1) (Zpos p2)).
Proof.
  intros H1 H2.
  destruct (truediv_core p1 p2 (xorb s1 s2) H1 H2)
    as (M & E & t & Hdiv & Ht & HE & Hexact & Hinexact).
  exists M, E. split; [exact Hdiv|].
  unfold Py.math_ceil. f_equal.
  pose proof (Z.pow_pos_nonneg 2 t ltac:(lia) Ht) as Hpos.
  rewrite ceil_div_pos by lia.
  set (N := Zpos p1 / Zpos p2) in *. set (W := Zpos M * 2 ^ (E + t)) in *.
  destruct (xorb s1 s2).
  - rewrite (ceil_scaled_rescale _ E t) by lia.
    replace (- (Zneg M * 2 ^ (E + t))) with W by (unfold W; lia).
    f_equal. apply div_between; [done|].
    destruct (decide (Zpos p1 mod Zpos p2 = 0)) as [HR|HR].
    + rewrite (Hexact HR). lia.
    + specialize (Hinexact HR). lia.
  - rewrite (ceil_scaled_rescale _ E t) by lia. fold W.
    case_decide as HR.
    + rewrite (Hexact HR).
      rewrite (div_between (- (N * 2 ^ t)) (2 ^ t) (- N)); lia.
    + specialize (Hinexact HR).
      rewrite (div_between (- W) (2 ^ t) (- (N + 1))); lia.
Qed.

(** On integers below [2^53], [math.ceil(a / b)] is the ceiling of the
    exact quotient. *)
Lemma math_ceil_truediv a b :
  Z.abs a < 2 ^ 53 → 0 < Z.abs b < 2 ^ 53 →
  (q ← Py.truediv a b; Py.math_ceil q) = Ok (ceil_div a b).
Proof.
  intros Ha Hb. unfold Py.truediv.
  destruct (Z.eqb_spec b 0) as [->|Hb0]; [simpl in Hb; lia|].
  destruct a as [|p1|p1], b as [|p2|p2]; try done; simpl Py.float_of_int;
    (match goal with
     | |- context [SFdiv _ _ (S754_finite ?s1 _ _) (S754_finite ?s2 _ _)] =>
         destruct (math_ceil_truediv_pos p1 p2 s1 s2 ltac:(simpl in *; lia)
                     ltac:(simpl in *; lia)) as (M & E & -> & Hceil)
     end);
    simpl mbind; simpl in Hceil; rewrite Hceil; f_equal; unfold ceil_div.
  all: try done.
  - f_equal. by rewrite <- (Z.div_opp_opp (Zpos p1) (Zpos p2)).
  - f_equal. by rewrite <- (Z.div_opp_opp (- Zpos p1) (Zpos p2)).
Qed.

Lemma ceil_div_bounds a s :
  0 < s → (ceil_div a s - 1) * s < a ≤ ceil_div a s * s.
Proof.
  intros Hs. rewrite ceil_div_pos by done.
  pose proof (Z.div_mod a s ltac:(lia)) as Hdiv.
  pose proof (Z.mod_pos_bound a s Hs) as Hrem.
  case_decide; lia.
Qed.

(** A pixel on the boundary [k * s] falls into tile [k], where floor
    division puts it too. *)
Lemma ceil_div_boundary k s : 0 < s → ceil_div (k * s) s = k ∧ k * s / s = k.
Proof.
  intros Hs. unfold ceil_div. split.
  - replace (- (k * s)) with (- k * s) by ring.
    rewrite Z.div_mul by lia. lia.
  - apply Z.div_mul. lia.
Qed.

(** A pixel strictly between two boundaries falls into the tile after
    the one floor division gives. *)
Lemma ceil_div_interior a k s :
  0 < s → k * s < a < (k + 1) * s → ceil_div a s = k + 1 ∧ a / s = k.
Proof.
  intros Hs Ha. unfold ceil_div. split.
  - rewrite (div_between (- a) s (- (k + 1))); lia.
  - apply div_between; lia.
Qed.

Lemma ceil_div_mono a a' s : 0 < s → a ≤ a' → ceil_div a s ≤ ceil_div a' s.
Proof.
  intros Hs Ha. unfold ceil_div.
  pose proof (Z.div_le_mono (- a') (- a) s Hs ltac:(lia)). lia.
Qed.

Lemma turn_coordinate_to_tile_exact m px py :
  0 < sq_tile_size m < 2 ^ 53 → Z.abs px < 2 ^ 53 → Z.abs py < 2 ^ 53 →
  turn_coordinate_to_tile m (px, py)
  = Ok (ceil_div px (sq_tile_size m), ceil_div py (sq_tile_size m)).
Proof.
  intros Hs Hx Hy. unfold turn_coordinate_to_tile. simpl fst. simpl snd.
  rewrite !math_ceil_truediv by lia. done.
Qed.

(** C5, as stated for every pixel coordinate, fails: the quotient is a
    double, and from [2^53] on not every integer is one. With a tile
    size of 1 the pixel [2^53 + 1] is sent to tile [2^53], below the
    ceiling of the quotient. Besides, a pixel on a tile boundary is not
    sent to another tile than by floor division: with tiles of 32
    pixels, pixel 64 is sent to tile 2 by both. *)
Lemma turn_coordinate_to_tile_huge_pixel :
  sq_tile_size town = 1
  ∧ turn_coordinate_to_tile town (9007199254740993, 0)
    = Ok (9007199254740992, 0)
  ∧ ceil_div 9007199254740993 1 = 9007199254740993
  ∧ sq_tile_size one_tile = 32
  ∧ turn_coordinate_to_tile one_tile (64, 64) = Ok (2, 2)
  ∧ 64 / 32 = 2.
Proof. split_and!; reflexivity. Qed.

(** C5, amended: for a tile size and pixel coordinates below [2^53] in
    magnitude, the tile size positive, [turn_coordinate_to_tile] returns
    the ceiling of [px / s] and of [py / s], each axis on its own: the
    tile [t] with [(t - 1) * s < px ≤ t * s]. A pixel on a boundary
    [k * s] is sent to tile [k], as by floor division; a pixel strictly
    between two boundaries is sent to the tile after the one floor
    division gives. The mapping is non-decreasing in each axis. *)
Theorem turn_coordinate_to_tile_ceiling m px py :
  0 < sq_tile_size m < 2 ^ 53 → Z.abs px < 2 ^ 53 → Z.abs py < 2 ^ 53 →
  ∃ tx ty,
    turn_coordinate_to_tile m (px, py) = Ok (tx, ty)
    ∧ tx = ceil_div px (sq_tile_size m)
    ∧ ty = ceil_div py (sq_tile_size m)
    ∧ (tx - 1) * sq_tile_size m < px ≤ tx * sq_tile_size m
    ∧ (ty - 1) * sq_tile_size m < py ≤ ty * sq_tile_size m
    ∧ (px mod sq_tile_size m = 0 → tx = px / sq_tile_size m)
    ∧ (px mod sq_tile_size m ≠ 0 → tx = px / sq_tile_size m + 1)
    ∧ (py mod sq_tile_size m = 0 → ty = py / sq_tile_size m)
    ∧ (py mod sq_tile_size m ≠ 0 → ty = py / sq_tile_size m + 1)
    ∧ (∀ px' py',
         Z.abs px' < 2 ^ 53 → Z.abs py' < 2 ^ 53 →
         px ≤ px' → py ≤ py' →
         ∃ tx' ty',
           turn_coordinate_to_tile m (px', py') = Ok (tx', ty')
           ∧ tx ≤ tx' ∧ ty ≤ ty').
Proof.
  intros Hs Hx Hy.
  exists (ceil_div px (sq_tile_size m)), (ceil_div py (sq_tile_size m)).
  split; [by apply turn_coordinate_to_tile_exact|].
  split; [done|]. split; [done|].
  split; [apply ceil_div_bounds; lia|].
  split; [apply ceil_div_bounds; lia|].
  rewrite !ceil_div_pos by lia.
  split_and!; try (intros; case_decide; (done || lia)).
  intros px' py' Hx' Hy' Hle Hle'.
  exists (ceil_div px' (sq_tile_size m)), (ceil_div py' (sq_tile_size m)).
  split; [by apply turn_coordinate_to_tile_exact|].
  rewrite <- !ceil_div_pos by lia.
  split; apply ceil_div_mono; lia.
Qed.

Lemma turn_coordinate_to_tile_ceiling_witness :
  ∃ tx ty,
    turn_coordinate_to_tile one_tile (65, 64) = Ok (tx, ty)
    ∧ tx = 3 ∧ ty = 2.
Proof.
  destruct (turn_coordinate_to_tile_ceiling one_tile 65 64)
    as (tx & ty & Hturn & -> & -> & _); [simpl; lia..|].
  eexists _, _. split; [exact Hturn|]. split; reflexivity.
Defined.

(** * More of the code *)

(** ** What the constructor builds *)

Lemma index_if_inv cond k c idx key c' :
  c' ∈ index_lookup (index_if cond k c idx) key →
  c' ∈ index_lookup idx key ∨ (cond = true ∧ key = k ∧ c' = c).
Proof.
  destruct cond; simpl; [|auto].
  rewrite index_lookup_add. case_decide as Hk; [|auto].
  rewrite elem_of_union, elem_of_singleton. intros [? | ->]; auto.
Qed.

Lemma index_tile_addresses_inv tile x y idx key c :
  c ∈ index_lookup (_index_tile_addresses tile x y idx) key →
  c ∈ index_lookup idx key ∨ (c = (x, y) ∧ addressed tile key).
Proof.
  unfold _index_tile_addresses, addressed. intros Hc.
  apply index_if_inv in Hc as [Hc|(Ht & -> & ->)];
    [|rewrite Ht; right; split; [done|]; do 3 right; done].
  apply index_if_inv in Hc as [Hc|(Ht & -> & ->)];
    [|rewrite Ht; right; split; [done|]; do 2 right; left; done].
  apply index_if_inv in Hc as [Hc|(Ht & -> & ->)];
    [|rewrite Ht; right; split; [done|]; right; left; done].
  apply index_if_inv in Hc as [Hc|(Ht & -> & ->)];
    [by left|rewrite Ht; right; split; [done|]; left; done].
Qed.

Lemma init_cells_built f y idx0 st :
  Py.for_each (init_cell f y) ([], idx0) (Py.range 0 (meta_maze_width f))
  = Ok st →
  (∀ (kx : nat) t,
     st.1 !! kx = Some t →
     build_tile f (y * meta_maze_width f + Z.of_nat kx) = Ok t)
  ∧ (∀ key c,
       c ∈ index_lookup st.2 key →
       c ∈ index_lookup idx0 key
       ∨ ∃ (kx : nat) t,
           c = (Z.of_nat kx, y) ∧ st.1 !! kx = Some t ∧ addressed t key).
Proof.
  intros Hloop.
  pose (P := λ (k : nat) (s : RowState),
    length s.1 = k
    ∧ (∀ (kx : nat) t,
         s.1 !! kx = Some t →
         build_tile f (y * meta_maze_width f + Z.of_nat kx) = Ok t)
    ∧ (∀ key c,
         c ∈ index_lookup s.2 key →
         c ∈ index_lookup idx0 key
         ∨ ∃ (kx : nat) t,
             c = (Z.of_nat kx, y) ∧ s.1 !! kx = Some t ∧ addressed t key)).
  assert (P (length (Py.range 0 (meta_maze_width f))) st) as (_ & Hb & Hs).
  { apply (for_each_invariant (init_cell f y) P _ ([], idx0)); [| |done].
    - unfold P; simpl. split_and!; [done| |auto].
      intros kx t Hkx. by rewrite lookup_nil in Hkx.
    - intros k x s1 s2 Hx (Hlen & Hbuilt & Hsound) Hcell.
      apply range_lookup in Hx as [-> _].
      apply init_cell_Ok in Hcell as (tile & Htile & ->).
      unfold P; simpl. split_and!.
      + rewrite length_app. simpl. lia.
      + intros kx t Hkx.
        apply lookup_app_Some in Hkx as [Hkx|[Hge Hkx]]; [by apply Hbuilt|].
        apply list_lookup_singleton_Some in Hkx as [Hkx <-].
        rewrite <- Htile. f_equal. lia.
      + intros key c Hc.
        apply index_tile_addresses_inv in Hc as [Hc|[-> Haddr]].
        * destruct (Hsound key c Hc) as [?|(kx & t & -> & Hkx & Haddr)];
            [by left|].
          right. exists kx, t. split_and!; [done| |done].
          apply lookup_app_Some. by left.
        * right. exists k, tile. split_and!; [f_equal; lia| |done].
          apply lookup_app_Some. right. split; [lia|].
          by replace (k - length s1.1)%nat with 0%nat by lia. }
  by split.
Qed.

Lemma init_rows_built f st :
  Py.for_each (init_row f) ([], ∅) (Py.range 0 (meta_maze_height f)) = Ok st →
  grid_built f st.1 ∧ grid_sound st.2 st.1.
Proof.
  intros Hloop.
  pose (P := λ (k : nat) (s : GridState),
    length s.1 = k ∧ grid_built f s.1 ∧ grid_sound s.2 s.1).
  assert (P (length (Py.range 0 (meta_maze_height f))) st) as (_ & Hb & Hs).
  { apply (for_each_invariant (init_row f) P _ ([], ∅)); [| |done].
    - unfold P; simpl. split_and!; [done| |].
      + intros ky kx row t Hky. by rewrite lookup_nil in Hky.
      + intros key c Hc. unfold index_lookup in Hc.
        rewrite lookup_empty in Hc. simpl in Hc. set_solver.
    - intros k y s1 s2 Hy (Hlen & Hbuilt & Hsound) Hrow.
      apply range_lookup in Hy as [-> _].
      apply init_row_Ok in Hrow as (r & Hcells & ->).
      apply init_cells_built in Hcells as [Hrbuilt Hrsound].
      unfold P; simpl. split_and!.
      + rewrite length_app. simpl. lia.
      + intros ky kx row t Hky Hkx.
        apply lookup_app_Some in Hky as [Hky|[Hge Hky]];
          [by eapply Hbuilt|].
        apply list_lookup_singleton_Some in Hky as [Hky <-].
        assert (ky = k) as -> by lia.
        rewrite <- (Hrbuilt kx t Hkx). by f_equal.
      + intros key c Hc.
        destruct (Hrsound key c Hc) as [Hold|(kx & t & -> & Hkx & Haddr)].
        * destruct (Hsound key c Hold)
            as (ky & kx & row & t & -> & Hky & Hkx & Haddr).
          exists ky, kx, row, t. split_and!; [done| |done..].
          apply lookup_app_Some. by left.
        * exists k, kx, r.1, t. split_and!; [f_equal; lia| |done..].
          apply lookup_app_Some. right. split; [lia|].
          by replace (k - length s1.1)%nat with 0%nat by lia. }
  by split.
Qed.

Lemma Maze_init_built name f m :
  Maze_init name f = Ok m →
  grid_built f (tiles m) ∧ grid_sound (address_tiles m) (tiles m).
Proof.
  intros (g & Hg & ->)%Maze_init_Ok. by apply init_rows_built in Hg.
Qed.

(** ** What event mutations leave alone *)

Lemma static_eq_refl t : static_eq t t.
Proof. unfold static_eq. by destruct t. Qed.

Lemma static_eq_trans t1 t2 t3 :
  static_eq t1 t2 → static_eq t2 t3 → static_eq t1 t3.
Proof. unfold static_eq. intros -> ->. done. Qed.

Lemma static_eq_set_events t evs : static_eq t (set_events t evs).
Proof. done. Qed.

Lemma static_eq_fields t t' :
  static_eq t t' →
  world t' = world t ∧ sector t' = sector t ∧ arena t' = arena t
  ∧ game_object t' = game_object t
  ∧ spawning_location t' = spawning_location t
  ∧ collision t' = collision t.
Proof. unfold static_eq. by intros ->. Qed.

Lemma static_eq_addressed t t' key :
  static_eq t t' → addressed t key ↔ addressed t' key.
Proof. unfold static_eq. by intros ->. Qed.

Lemma grid_static_eq_refl g : grid_static_eq g g.
Proof.
  apply Forall2_same_length_lookup_2; [done|].
  intros ky row row' Hrow Hrow'. assert (row' = row) as -> by congruence.
  apply Forall2_same_length_lookup_2; [done|].
  intros kx t t' Ht Ht'. assert (t' = t) as -> by congruence.
  apply static_eq_refl.
Qed.

Lemma grid_static_eq_trans g1 g2 g3 :
  grid_static_eq g1 g2 → grid_static_eq g2 g3 → grid_static_eq g1 g3.
Proof.
  unfold grid_static_eq. intros H12 H23.
  eapply Forall2_trans; [|exact H12|exact H23].
  intros r1 r2 r3 Hr12 Hr23.
  eapply Forall2_trans; [|exact Hr12|exact Hr23].
  apply static_eq_trans.
Qed.

Lemma grid_static_eq_lookup g g' (ky kx : nat) row' t' :
  grid_static_eq g g' → g' !! ky = Some row' → row' !! kx = Some t' →
  ∃ row t, g !! ky = Some row ∧ row !! kx = Some t ∧ static_eq t t'.
Proof.
  intros Hg Hrow' Ht'.
  destruct (Forall2_lookup_r _ _ _ _ _ Hg Hrow') as (row & Hrow & Hrows).
  destruct (Forall2_lookup_r _ _ _ _ _ Hrows Ht') as (t & Ht & Heq).
  eauto.
Qed.

Lemma store_tile_static_eq m c t evs :
  access_tile m c = Ok t →
  grid_static_eq (tiles m) (tiles (store_tile m c (set_events t evs))).
Proof.
  destruct c as [x y]. intros Hacc.
  destruct (store_tile_Ok m x y t (set_events t evs) Hacc)
    as (ky & row & kx & Hky & Hrow & Hkx & Ht & ->). simpl.
  rewrite <- (list_insert_id (tiles m) ky row Hrow) at 1.
  apply Forall2_insert; [apply grid_static_eq_refl|].
  rewrite <- (list_insert_id row kx t Ht) at 1.
  apply Forall2_insert; [|apply static_eq_set_events].
  apply Forall2_same_length_lookup_2; [done|].
  intros k t1 t2 H1 H2. assert (t2 = t1) as -> by congruence.
  apply static_eq_refl.
Qed.

Lemma after_op_static_eq m op :
  grid_static_eq (tiles m) (tiles (after_op m op)).
Proof.
  unfold after_op.
  destruct (run_op_update op m) as (c & f & ->).
  destruct (access_tile_cases m c) as [[t Ht]|Hr].
  - rewrite (update_events_Ok m c f t Ht). by apply store_tile_static_eq.
  - rewrite (update_events_Raise m c f _ Hr). apply grid_static_eq_refl.
Qed.

Lemma after_ops_static_eq ops : ∀ m,
  grid_static_eq (tiles m) (tiles (after_ops m ops)).
Proof.
  unfold after_ops. induction ops as [|op ops IH]; intros m; simpl.
  - apply grid_static_eq_refl.
  - eapply grid_static_eq_trans; [apply after_op_static_eq|apply IH].
Qed.

(** Inside the grid, the tile read after event mutations is the tile of
    the fresh maze up to its events. *)
Lemma access_tile_after_ops name f m ops x y :
  Maze_init name f = Ok m →
  0 ≤ x < maze_width m → 0 ≤ y < maze_height m →
  ∃ t0 row t,
    build_tile f (y * meta_maze_width f + x) = Ok t0
    ∧ access_tile m (x, y) = Ok t0
    ∧ tiles (after_ops m ops) !! Z.to_nat y = Some row
    ∧ row !! Z.to_nat x = Some t
    ∧ access_tile (after_ops m ops) (x, y) = Ok t
    ∧ static_eq t0 t.
Proof.
  intros Hinit Hx Hy.
  pose proof (reachable_ok name f m ops Hinit) as [Hshape _].
  pose proof (Maze_init_built name f m Hinit) as [Hbuilt _].
  destruct (after_ops_static ops m) as (Hw & Hh & _ & _).
  destruct (access_tile_inside (after_ops m ops) x y)
    as (row & t & Hrow & Ht & Hacc); [done|lia..|].
  destruct (grid_static_eq_lookup _ _ _ _ _ _ (after_ops_static_eq ops m)
              Hrow Ht) as (row0 & t0 & Hrow0 & Ht0 & Heq).
  exists t0, row, t. split_and!; [| |done..].
  - specialize (Hbuilt _ _ _ _ Hrow0 Ht0).
    rewrite !Z2Nat.id in Hbuilt by lia.
    apply Maze_init_Ok in Hinit as (g & _ & ->). done.
  - apply access_tile_Ok. exists (Z.to_nat y), row0, (Z.to_nat x).
    apply lookup_lt_Some in Hrow0 as Hlt. apply lookup_lt_Some in Ht0 as Hlt'.
    split_and!; [|done| |done]; apply norm_index_nonneg; lia.
Qed.

Lemma build_tile_fields f idx t :
  0 ≤ idx → build_tile f idx = Ok t →
  ∃ s a o sp c,
    sector_raw f !! Z.to_nat idx = Some s
    ∧ arena_raw f !! Z.to_nat idx = Some a
    ∧ object_raw f !! Z.to_nat idx = Some o
    ∧ spawn_raw f !! Z.to_nat idx = Some sp
    ∧ collision_raw f !! Z.to_nat idx = Some c
    ∧ world t = world_block f
    ∧ sector t = default "" (sector_blocks f !! s)
    ∧ arena t = default "" (arena_blocks f !! a)
    ∧ game_object t = default "" (object_blocks f !! o)
    ∧ spawning_location t = default "" (spawn_blocks f !! sp)
    ∧ collision t = negb (String.eqb c "0")
    ∧ events t = if Py.truthy (game_object t)
                 then {[ (object_path t, None, None, None) ]} else ∅.
Proof.
  intros Hidx. unfold build_tile.
  assert (∀ (l : list string) v,
            Py.getitem l idx = Ok v → l !! Z.to_nat idx = Some v) as Hget.
  { intros l v (k & Hk & Hv)%getitem_Ok.
    unfold Py.norm_index in Hk.
    destruct (Z.leb_spec 0 idx); [|lia].
    destruct (idx <? Z.of_nat (length l)); [|done]. by injection Hk as <-. }
  destruct (Py.getitem (sector_raw f) idx) as [s|] eqn:Hs; simpl; [|done].
  destruct (Py.getitem (arena_raw f) idx) as [a|] eqn:Ha; simpl; [|done].
  destruct (Py.getitem (object_raw f) idx) as [o|] eqn:Ho; simpl; [|done].
  destruct (Py.getitem (spawn_raw f) idx) as [sp|] eqn:Hsp; simpl; [|done].
  destruct (Py.getitem (collision_raw f) idx) as [c|] eqn:Hc; simpl; [|done].
  destruct (Py.truthy (Py.dict_get (object_blocks f) o)) eqn:Hobj;
    intros [= <-]; exists s, a, o, sp, c; simpl; rewrite Hobj;
    split_and!; first [by apply Hget | done].
Qed.

(** X1: In a maze the constructor built, the tile at an in-bounds (x, y) is
    made from cell y * maze_width + x of each of the five layers: its world
    is the world block, its sector, arena, game object and spawning location
    are the block tables' entries for the layers' cells (the empty string
    when a table has no entry), and it collides exactly when the collision
    cell is not '0'. *)
Theorem Maze_init_tile_layout name f m x y :
  Maze_init name f = Ok m →
  0 ≤ x < maze_width m → 0 ≤ y < maze_height m →
  ∃ t s a o sp c,
    access_tile m (x, y) = Ok t
    ∧ sector_raw f !! Z.to_nat (y * maze_width m + x) = Some s
    ∧ arena_raw f !! Z.to_nat (y * maze_width m + x) = Some a
    ∧ object_raw f !! Z.to_nat (y * maze_width m + x) = Some o
    ∧ spawn_raw f !! Z.to_nat (y * maze_width m + x) = Some sp
    ∧ collision_raw f !! Z.to_nat (y * maze_width m + x) = Some c
    ∧ world t = world_block f
    ∧ sector t = default "" (sector_blocks f !! s)
    ∧ arena t = default "" (arena_blocks f !! a)
    ∧ game_object t = default "" (object_blocks f !! o)
    ∧ spawning_location t = default "" (spawn_blocks f !! sp)
    ∧ collision t = negb (String.eqb c "0").
Proof.
  intros Hinit Hx Hy.
  destruct (access_tile_after_ops name f m [] x y Hinit Hx Hy)
    as (t & _ & _ & Hbuild & Hacc & _).
  assert (maze_width m = meta_maze_width f) as Hw
    by (by apply Maze_init_Ok in Hinit as (g & _ & ->)).
  rewrite Hw in *.
  apply build_tile_fields in Hbuild
    as (s & a & o & sp & c & Hs & Ha & Ho & Hsp & Hc & Hfields); [|nia].
  exists t, s, a, o, sp, c. tauto.
Qed.

Lemma Maze_init_tile_layout_witness :
  ∃ t s a o sp c,
    access_tile town (1, 1) = Ok t
    ∧ sector_raw town_files !! Z.to_nat (1 * maze_width town + 1) = Some s
    ∧ arena_raw town_files !! Z.to_nat (1 * maze_width town + 1) = Some a
    ∧ object_raw town_files !! Z.to_nat (1 * maze_width town + 1) = Some o
    ∧ spawn_raw town_files !! Z.to_nat (1 * maze_width town + 1) = Some sp
    ∧ collision_raw town_files !! Z.to_nat (1 * maze_width town + 1)
      = Some c
    ∧ world t = world_block town_files
    ∧ sector t = default "" (sector_blocks town_files !! s)
    ∧ arena t = default "" (arena_blocks town_files !! a)
    ∧ game_object t = default "" (object_blocks town_files !! o)
    ∧ spawning_location t = default "" (spawn_blocks town_files !! sp)
    ∧ collision t = negb (String.eqb c "0").
Proof.
  apply (Maze_init_tile_layout "the_ville" town_files town 1 1 eq_refl);
    (split; [discriminate|reflexivity]).
Defined.

(** X2: Event mutations change event sets only: after any sequence of calls
    of the four event mutators on a constructed maze (a call that raises
    changes nothing), every in-bounds tile still has the world, sector,
    arena, game object, spawning location and collision it was built with,
    and the maze keeps its width, height and tile size. *)
Theorem event_ops_keep_static_fields name f m ops x y :
  Maze_init name f = Ok m →
  0 ≤ x < maze_width m → 0 ≤ y < maze_height m →
  ∃ t0 t,
    access_tile m (x, y) = Ok t0
    ∧ access_tile (after_ops m ops) (x, y) = Ok t
    ∧ world t = world t0 ∧ sector t = sector t0 ∧ arena t = arena t0
    ∧ game_object t = game_object t0
    ∧ spawning_location t = spawning_location t0
    ∧ collision t = collision t0
    ∧ maze_width (after_ops m ops) = maze_width m
    ∧ maze_height (after_ops m ops) = maze_height m
    ∧ sq_tile_size (after_ops m ops) = sq_tile_size m.
Proof.
  intros Hinit Hx Hy.
  destruct (access_tile_after_ops name f m ops x y Hinit Hx Hy)
    as (t0 & row & t & _ & Hacc0 & _ & _ & Hacc & Heq).
  destruct (after_ops_static ops m) as (Hw & Hh & Hs & _).
  apply static_eq_fields in Heq. exists t0, t. tauto.
Qed.

Lemma event_ops_keep_static_fields_witness :
  ∃ t0 t,
    access_tile town (1, 1) = Ok t0
    ∧ access_tile
        (after_ops town [RemoveSubjectEvents "Town:park:bench:chessboard"
                           (1, 1)])
        (1, 1) = Ok t
    ∧ world t = world t0 ∧ sector t = sector t0 ∧ arena t = arena t0
    ∧ game_object t = game_object t0
    ∧ spawning_location t = spawning_location t0
    ∧ collision t = collision t0
    ∧ maze_width
        (after_ops town [RemoveSubjectEvents "Town:park:bench:chessboard"
                           (1, 1)])
      = maze_width town
    ∧ maze_height
        (after_ops town [RemoveSubjectEvents "Town:park:bench:chessboard"
                           (1, 1)])
      = maze_height town
    ∧ sq_tile_size
        (after_ops town [RemoveSubjectEvents "Town:park:bench:chessboard"
                           (1, 1)])
      = sq_tile_size town.
Proof.
  apply (event_ops_keep_static_fields "the_ville" town_files town _ 1 1
           eq_refl);
    (split; [discriminate|reflexivity]).
Defined.

(** X3: In a freshly constructed maze an in-bounds tile with a game object
    holds exactly one event, the idle event (address, None, None, None)
    whose subject is the address get_tile_path gives for the tile at level
    'object'; a tile without a game object holds no event. *)
Theorem Maze_init_object_events name f m x y :
  Maze_init name f = Ok m →
  0 ≤ x < maze_width m → 0 ≤ y < maze_height m →
  ∃ t,
    access_tile m (x, y) = Ok t
    ∧ (game_object t = "" → events t = ∅)
    ∧ (game_object t ≠ "" →
       ∃ address,
         get_tile_path m (x, y) "object" = Ok address
         ∧ events t = {[ (address, None, None, None) ]}).
Proof.
  intros Hinit Hx Hy.
  destruct (access_tile_after_ops name f m [] x y Hinit Hx Hy)
    as (t & _ & _ & Hbuild & Hacc & _).
  assert (maze_width m = meta_maze_width f) as Hw
    by (by apply Maze_init_Ok in Hinit as (g & _ & ->)).
  apply build_tile_fields in Hbuild
    as (s & a & o & sp & c & _ & _ & _ & _ & _ & _ & _ & _ & _ & _ & _ & Hev);
    [|nia].
  exists t. split; [done|]. rewrite Hev. split.
  - by intros ->.
  - intros Hobj. exists (object_path t). split.
    + unfold get_tile_path. by rewrite Hacc.
    + by destruct (game_object t).
Qed.

Lemma Maze_init_object_events_witness :
  ∃ t,
    access_tile town (1, 1) = Ok t
    ∧ (game_object t = "" → events t = ∅)
    ∧ (game_object t ≠ "" →
       ∃ address,
         get_tile_path town (1, 1) "object" = Ok address
         ∧ events t = {[ (address, None, None, None) ]}).
Proof.
  apply (Maze_init_object_events "the_ville" town_files town 1 1 eq_refl);
    (split; [discriminate|reflexivity]).
Defined.

(** X4: The reverse index is exact: in a constructed maze, also after any
    event mutations, (x, y) is listed under a key if and only if (x, y) is
    in bounds and the tile there has a non-empty sector, arena, game object
    or spawning location whose address (world:sector, world:sector:arena,
    world:sector:arena:game_object or <spawn_loc>location) is that key. *)
Theorem tiles_for_address_exact name f m ops key x y :
  Maze_init name f = Ok m →
  (x, y) ∈ tiles_for_address (after_ops m ops) key ↔
  0 ≤ x < maze_width m ∧ 0 ≤ y < maze_height m
  ∧ ∃ t, access_tile (after_ops m ops) (x, y) = Ok t ∧ addressed t key.
Proof.
  intros Hinit.
  pose proof (reachable_ok name f m ops Hinit) as [Hshape Hidx].
  pose proof (Maze_init_ok name f m Hinit) as [Hshape0 _].
  pose proof (Maze_init_built name f m Hinit) as [_ Hsound].
  destruct (after_ops_static ops m) as (Hw & Hh & _ & Haddr).
  unfold tiles_for_address. rewrite Haddr. split.
  - intros Hin.
    destruct (Hsound key _ Hin) as (ky & kx & row0 & t0 & [= -> ->] & Hrow0
                                    & Ht0 & Haddressed).
    apply lookup_lt_Some in Hrow0 as Hlty.
    pose proof (grid_shape_row _ _ _ _ _ Hshape0 Hrow0) as Hrlen.
    apply lookup_lt_Some in Ht0 as Hltx.
    pose proof Hshape0 as [Hlen0 _].
    assert (0 ≤ Z.of_nat kx < maze_width m) as Hx by lia.
    assert (0 ≤ Z.of_nat ky < maze_height m) as Hy by lia.
    split; [done|]. split; [done|].
    destruct (access_tile_after_ops name f m ops _ _ Hinit Hx Hy)
      as (t0' & row & t & _ & Hacc0 & _ & _ & Hacc & Heq).
    exists t. split; [done|].
    apply (static_eq_addressed t0' t key Heq).
    destruct (access_tile_inside m (Z.of_nat kx) (Z.of_nat ky))
      as (row1 & t1 & Hrow1 & Ht1 & Hacc1); [done..|].
    rewrite !Nat2Z.id in *. congruence.
  - intros (Hx & Hy & t & Hacc & Haddressed).
    destruct (access_tile_inside (after_ops m ops) x y)
      as (row & t' & Hrow & Ht & Hacc'); [done|lia..|].
    assert (t' = t) as -> by congruence.
    destruct (Hidx _ _ _ _ Hrow Ht) as (Hs & Ha & Ho & Hp).
    rewrite !Z2Nat.id, Haddr in * by lia.
    destruct Haddressed as [[? ->]|[[? ->]|[[? ->]|[? ->]]]]; auto.
Qed.

Lemma tiles_for_address_exact_witness :
  (1, 1) ∈ tiles_for_address town "Town:park:bench".
Proof.
  apply (tiles_for_address_exact "the_ville" town_files town []
           "Town:park:bench" 1 1 eq_refl).
  split; [split; [discriminate|reflexivity]|].
  split; [split; [discriminate|reflexivity]|].
  exists chessboard_tile. split; [reflexivity|].
  right. left. split; reflexivity.
Defined.

(** ** The four event mutations *)

Lemma set_events_same t : set_events t (events t) = t.
Proof. by destruct t. Qed.

(** An update that gives back the events it found changes nothing. *)
Lemma update_events_same m c f t :
  access_tile m c = Ok t → f (events t) = events t →
  update_events m c f = Ok m.
Proof.
  intros Hacc Hf. rewrite (update_events_Ok m c f t Hacc), Hf.
  by rewrite set_events_same, (store_tile_same m c t Hacc).
Qed.

Lemma update_events_access m c f t :
  access_tile m c = Ok t →
  ∃ m1,
    update_events m c f = Ok m1
    ∧ access_tile m1 c = Ok (set_events t (f (events t))).
Proof.
  intros Hacc. eexists. split; [by apply update_events_Ok|].
  by eapply access_store_tile.
Qed.

(** X5: add_event_from_tile on a tile that access_tile can read succeeds and
    leaves the tile with its former events plus the new one; adding the same
    event again changes nothing, and adding an event the tile already holds
    leaves the maze as it was. *)
Theorem add_event_idempotent m event tile t :
  access_tile m tile = Ok t →
  ∃ m1 t1,
    add_event_from_tile m event tile = Ok m1
    ∧ access_tile m1 tile = Ok t1
    ∧ events t1 = events t ∪ {[event]}
    ∧ add_event_from_tile m1 event tile = Ok m1
    ∧ (event ∈ events t → m1 = m).
Proof.
  intros Hacc. unfold add_event_from_tile.
  destruct (update_events_access m tile (λ evs, evs ∪ {[event]}) t Hacc)
    as (m1 & Hadd & Hacc1).
  exists m1, (set_events t (events t ∪ {[event]})).
  split_and!; [done..| |].
  - apply (update_events_same m1 tile _ _ Hacc1). simpl.
    apply set_eq. intros ev. rewrite !elem_of_union. tauto.
  - intros Hin.
    rewrite (update_events_same m tile _ t Hacc) in Hadd; [congruence|].
    apply set_eq. intros ev.
    rewrite elem_of_union, elem_of_singleton. split; [|tauto].
    by intros [Hev | ->].
Qed.

Lemma add_event_idempotent_witness :
  ∃ m1 t1,
    add_event_from_tile town park_busy (0, 0) = Ok m1
    ∧ access_tile m1 (0, 0) = Ok t1
    ∧ events t1 = events park_tile ∪ {[ park_busy ]}
    ∧ add_event_from_tile m1 park_busy (0, 0) = Ok m1
    ∧ (park_busy ∈ events park_tile → m1 = town).
Proof.
  apply (add_event_idempotent town park_busy (0, 0) park_tile).
  reflexivity.
Defined.

(** X6: remove_event_from_tile on a tile that access_tile can read succeeds
    and leaves the tile with its former events without the given one; an
    absent event raises nothing and leaves the maze as it was, and removing
    a second time changes nothing. *)
Theorem remove_event_discards m event tile t :
  access_tile m tile = Ok t →
  ∃ m1 t1,
    remove_event_from_tile m event tile = Ok m1
    ∧ access_tile m1 tile = Ok t1
    ∧ events t1 = events t ∖ {[event]}
    ∧ (event ∉ events t1)
    ∧ remove_event_from_tile m1 event tile = Ok m1
    ∧ (event ∉ events t → m1 = m).
Proof.
  intros Hacc. unfold remove_event_from_tile.
  destruct (update_events_access m tile (λ evs, evs ∖ {[event]}) t Hacc)
    as (m1 & Hrem & Hacc1).
  exists m1, (set_events t (events t ∖ {[event]})).
  split_and!; [done..| | |].
  - simpl. rewrite elem_of_difference, elem_of_singleton. tauto.
  - apply (update_events_same m1 tile _ _ Hacc1). simpl.
    apply set_eq. intros ev. rewrite !elem_of_difference. tauto.
  - intros Hnotin.
    rewrite (update_events_same m tile _ t Hacc) in Hrem; [congruence|].
    by apply discard_absent.
Qed.

Lemma remove_event_discards_witness :
  ∃ m1 t1,
    remove_event_from_tile town chessboard_idle (1, 1) = Ok m1
    ∧ access_tile m1 (1, 1) = Ok t1
    ∧ events t1 = events chessboard_tile ∖ {[ chessboard_idle ]}
    ∧ (chessboard_idle ∉ events t1)
    ∧ remove_event_from_tile m1 chessboard_idle (1, 1) = Ok m1
    ∧ (chessboard_idle ∉ events chessboard_tile → m1 = town).
Proof.
  apply (remove_event_discards town chessboard_idle (1, 1) chessboard_tile).
  reflexivity.
Defined.



(** X8: remove_subject_events_from_tile on a tile that access_tile can read
    succeeds and leaves exactly the events of the tile whose subject differs
    from the given one; running it again changes nothing. *)
Theorem remove_subject_events m subj tile t :
  access_tile m tile = Ok t →
  ∃ m1 t1,
    remove_subject_events_from_tile m subj tile = Ok m1
    ∧ access_tile m1 tile = Ok t1
    ∧ (∀ ev, ev ∈ events t1 ↔ ev ∈ events t ∧ subject ev ≠ subj)
    ∧ remove_subject_events_from_tile m1 subj tile = Ok m1.
Proof.
  intros Hacc. unfold remove_subject_events_from_tile.
  set (f := λ evs : gset Event, filter (λ ev, subject ev ≠ subj) evs).
  destruct (update_events_access m tile f t Hacc) as (m1 & Hrem & Hacc1).
  exists m1, (set_events t (f (events t))).
  split_and!; [done..| |].
  - intros ev. simpl. unfold f. rewrite elem_of_filter. tauto.
  - apply (update_events_same m1 tile f _ Hacc1). simpl. unfold f.
    apply set_eq. intros ev. rewrite !elem_of_filter. tauto.
Qed.

Lemma remove_subject_events_witness :
  ∃ m1 t1,
    remove_subject_events_from_tile town "Town:park:bench:chessboard" (1, 1)
    = Ok m1
    ∧ access_tile m1 (1, 1) = Ok t1
    ∧ (∀ ev, ev ∈ events t1 ↔
             ev ∈ events chessboard_tile
             ∧ subject ev ≠ "Town:park:bench:chessboard")
    ∧ remove_subject_events_from_tile m1 "Town:park:bench:chessboard" (1, 1)
      = Ok m1.
Proof.
  apply (remove_subject_events town "Town:park:bench:chessboard" (1, 1)
           chessboard_tile).
  reflexivity.
Defined.

Lemma getitem_nat {A} (l : list A) (k : nat) :
  Py.getitem l (Z.of_nat k)
  = match l !! k with Some a => Ok a | None => Raise IndexError end.
Proof.
  unfold Py.getitem, Py.norm_index.
  destruct (Z.leb_spec 0 (Z.of_nat k)); [|lia].
  destruct (Z.ltb_spec (Z.of_nat k) (Z.of_nat (length l))).
  - by rewrite Nat2Z.id.
  - rewrite lookup_ge_None_2; [done|lia].
Qed.

(** Writing the tile at one position of the grid leaves the tile read at
    any other position. *)
Lemma access_store_tile_other m x y x' y' t :
  0 ≤ x → 0 ≤ y → 0 ≤ x' → 0 ≤ y' → (x, y) ≠ (x', y') →
  access_tile (store_tile m (x, y) t) (x', y') = access_tile m (x', y').
Proof.
  intros Hx Hy Hx' Hy' Hne. unfold store_tile. simpl fst. simpl snd.
  destruct (Py.norm_index (length (tiles m)) y) as [ky|] eqn:Hky; [|done].
  destruct (tiles m !! ky) as [row|] eqn:Hrow; [|done].
  destruct (Py.norm_index (length row) x) as [kx|] eqn:Hkx; [|done].
  assert (ky = Z.to_nat y ∧ kx = Z.to_nat x) as [-> ->].
  { unfold Py.norm_index in Hky, Hkx.
    destruct (Z.leb_spec 0 y); [|lia]. destruct (Z.leb_spec 0 x); [|lia].
    destruct (y <? _); [|done]. destruct (x <? _); [|done].
    split; congruence. }
  unfold access_tile. simpl tiles.
  rewrite <- (Z2Nat.id y'), <- (Z2Nat.id x') by lia.
  rewrite !getitem_nat.
  destruct (decide (Z.to_nat y = Z.to_nat y')) as [Heq|Hney].
  - rewrite <- Heq, list_lookup_insert_eq by (by eapply lookup_lt_Some).
    rewrite Hrow. simpl. rewrite !getitem_nat.
    rewrite list_lookup_insert_ne; [done|].
    intros Hxx. apply Hne. f_equal; lia.
  - by rewrite list_lookup_insert_ne.
Qed.

(** X9: An event mutation at the non-negative coordinate (x, y) leaves
    access_tile at every other non-negative coordinate as it was, and leaves
    the reverse index as it was, whether the call succeeds or raises. *)
Theorem event_op_other_tiles m op x y x' y' :
  op_tile op = (x, y) → 0 ≤ x → 0 ≤ y → 0 ≤ x' → 0 ≤ y' →
  (x, y) ≠ (x', y') →
  access_tile (after_op m op) (x', y') = access_tile m (x', y')
  ∧ address_tiles (after_op m op) = address_tiles m.
Proof.
  intros Hop Hx Hy Hx' Hy' Hne. split; [|apply after_op_static].
  unfold after_op.
  assert (∃ f, run_op op m = update_events m (x, y) f) as [f ->]
    by (destruct op; simpl in *; subst; eauto).
  destruct (access_tile_cases m (x, y)) as [[t Ht]|Hr].
  - rewrite (update_events_Ok m _ f t Ht).
    by apply access_store_tile_other.
  - by rewrite (update_events_Raise m _ f _ Hr).
Qed.

Lemma event_op_other_tiles_witness :
  access_tile (after_op town (AddEvent park_busy (0, 0))) (1, 1)
  = access_tile town (1, 1)
  ∧ address_tiles (after_op town (AddEvent park_busy (0, 0)))
    = address_tiles town.
Proof.
  apply (event_op_other_tiles town (AddEvent park_busy (0, 0)) 0 0 1 1);
    first [ reflexivity | discriminate ].
Defined.

(** X10: On a constructed maze, also after earlier mutations, each of the
    four event mutators succeeds when its coordinate lies in [-width, width)
    x [-height, height) (negative coordinates count from the end, as Python
    indices do) and raises IndexError otherwise. *)
Theorem event_op_raises name f m ops op x y :
  Maze_init name f = Ok m → op_tile op = (x, y) →
  (- maze_width m ≤ x < maze_width m ∧ - maze_height m ≤ y < maze_height m →
   ∃ m1, run_op op (after_ops m ops) = Ok m1)
  ∧ (¬ (- maze_width m ≤ x < maze_width m
        ∧ - maze_height m ≤ y < maze_height m) →
     run_op op (after_ops m ops) = Raise IndexError).
Proof.
  intros Hinit Hop.
  pose proof (reachable_ok name f m ops Hinit) as [Hshape _].
  destruct (after_ops_static ops m) as (Hw & Hh & _ & _).
  pose proof (access_tile_Raise (after_ops m ops) x y Hshape) as Hraise.
  rewrite Hw, Hh in Hraise.
  assert (∃ g, run_op op (after_ops m ops)
               = update_events (after_ops m ops) (x, y) g) as [g ->]
    by (destruct op; simpl in *; subst; eauto).
  split.
  - intros Hin.
    destruct (access_tile_cases (after_ops m ops) (x, y)) as [[t Ht]|Hr];
      [|tauto].
    rewrite (update_events_Ok _ _ g t Ht). eauto.
  - intros Hout. apply update_events_Raise. tauto.
Qed.

Lemma event_op_raises_witness :
  run_op (AddEvent park_busy (3, 0)) town = Raise IndexError.
Proof.
  apply (proj2 (event_op_raises "the_ville" town_files town []
                  (AddEvent park_busy (3, 0)) 3 0 eq_refl eq_refl)).
  intros [[_ Hx] _]. discriminate Hx.
Defined.

(** ** Nearby tiles, for any center and radius *)

Lemma elem_of_get_nearby_tiles m x y r i j :
  (i, j) ∈ get_nearby_tiles m (x, y) r ↔
  (x - r ≤ i ≤ x + r ∧ y - r ≤ j ≤ y + r)
  ∧ (0 ≤ i < maze_width m ∧ 0 ≤ j < maze_height m).
Proof.
  unfold get_nearby_tiles. rewrite elem_of_pairs, !elem_of_range. lia.
Qed.

(** X11: For any center and radius, also a center outside the grid or a
    negative radius, get_nearby_tiles lists exactly the in-bounds
    coordinates within the radius of the center in both axes, each once; the
    list is empty exactly when the radius is negative, the grid has no tile,
    or the square around the center misses the grid. *)
Theorem get_nearby_tiles_any_center m x y r :
  (∀ i j, (i, j) ∈ get_nearby_tiles m (x, y) r ↔
          (x - r ≤ i ≤ x + r ∧ y - r ≤ j ≤ y + r)
          ∧ (0 ≤ i < maze_width m ∧ 0 ≤ j < maze_height m))
  ∧ NoDup (get_nearby_tiles m (x, y) r)
  ∧ (get_nearby_tiles m (x, y) r = [] ↔
     r < 0 ∨ maze_width m ≤ 0 ∨ maze_height m ≤ 0
     ∨ x + r < 0 ∨ maze_width m ≤ x - r
     ∨ y + r < 0 ∨ maze_height m ≤ y - r).
Proof.
  split_and!.
  - intros i j. apply elem_of_get_nearby_tiles.
  - unfold get_nearby_tiles. apply NoDup_pairs; apply NoDup_range.
  - split.
    + intros Hnil.
      destruct (Z.lt_ge_cases r 0) as [|Hr]; [auto|].
      destruct (Z.le_gt_cases (maze_width m) 0) as [|Hw]; [auto|].
      destruct (Z.le_gt_cases (maze_height m) 0) as [|Hh]; [auto|].
      destruct (Z.lt_ge_cases (x + r) 0) as [|Hx0]; [auto 10|].
      destruct (Z.le_gt_cases (maze_width m) (x - r)) as [|Hx1]; [auto 10|].
      destruct (Z.lt_ge_cases (y + r) 0) as [|Hy0]; [auto 10|].
      destruct (Z.le_gt_cases (maze_height m) (y - r)) as [|Hy1]; [auto 10|].
      exfalso.
      assert ((Z.max 0 (x - r), Z.max 0 (y - r))
              ∈ get_nearby_tiles m (x, y) r) as Hin
        by (apply elem_of_get_nearby_tiles; lia).
      rewrite Hnil in Hin. by apply elem_of_nil in Hin.
    + intros Hempty.
      destruct (get_nearby_tiles m (x, y) r) as [|[i j] l] eqn:Hl; [done|].
      assert ((i, j) ∈ get_nearby_tiles m (x, y) r) as Hin
        by (rewrite Hl; apply list_elem_of_here).
      apply elem_of_get_nearby_tiles in Hin. lia.
Qed.

(** X12: Every coordinate get_nearby_tiles returns on a constructed maze,
    for any center and radius and after any event mutations, can be read
    with access_tile without an error. *)
Theorem get_nearby_tiles_accessible name f m ops tile vision_r c :
  Maze_init name f = Ok m →
  c ∈ get_nearby_tiles (after_ops m ops) tile vision_r →
  ∃ t, access_tile (after_ops m ops) c = Ok t.
Proof.
  intros Hinit Hc. destruct tile as [x y], c as [i j].
  apply elem_of_get_nearby_tiles in Hc as [_ [Hi Hj]].
  pose proof (reachable_ok name f m ops Hinit) as [Hshape _].
  destruct (access_tile_inside (after_ops m ops) i j)
    as (row & t & _ & _ & Hacc); [done..|]. eauto.
Qed.

Lemma get_nearby_tiles_accessible_witness :
  ∃ t, access_tile town (0, 0) = Ok t.
Proof.
  apply (get_nearby_tiles_accessible "the_ville" town_files town [] (0, 0) 0
           (0, 0) eq_refl).
  apply list_elem_of_here.
Defined.

(** X13: Between two in-bounds tiles get_nearby_tiles is symmetric: one is
    among the other's nearby tiles exactly when the other is among its
    nearby tiles for the same radius; and a larger radius never loses a
    tile. *)
Theorem get_nearby_tiles_symmetric_monotone m x y x' y' r r' :
  0 ≤ x < maze_width m → 0 ≤ y < maze_height m →
  0 ≤ x' < maze_width m → 0 ≤ y' < maze_height m →
  ((x', y') ∈ get_nearby_tiles m (x, y) r ↔
   (x, y) ∈ get_nearby_tiles m (x', y') r)
  ∧ (r ≤ r' →
     (x', y') ∈ get_nearby_tiles m (x, y) r →
     (x', y') ∈ get_nearby_tiles m (x, y) r').
Proof.
  intros Hx Hy Hx' Hy'. rewrite !elem_of_get_nearby_tiles. split; lia.
Qed.

Lemma get_nearby_tiles_symmetric_monotone_witness :
  ((1, 1) ∈ get_nearby_tiles town (0, 0) 1 ↔
   (0, 0) ∈ get_nearby_tiles town (1, 1) 1)
  ∧ (1 ≤ 2 →
     (1, 1) ∈ get_nearby_tiles town (0, 0) 1 →
     (1, 1) ∈ get_nearby_tiles town (0, 0) 2).
Proof.
  apply (get_nearby_tiles_symmetric_monotone town 0 0 1 1 1 2);
    (split; [discriminate|reflexivity]).
Defined.

(** ** Pixels to tiles, for any tile size *)

(** X14: With a positive tile size, the pixel (tx * sq_tile_size, ty *
    sq_tile_size) is mapped back to the tile (tx, ty) by
    turn_coordinate_to_tile, as long as the tile size and both pixel
    coordinates are below 2^53. *)
Theorem tile_pixel_round_trip m tx ty :
  0 < sq_tile_size m < 2 ^ 53 →
  Z.abs (tx * sq_tile_size m) < 2 ^ 53 →
  Z.abs (ty * sq_tile_size m) < 2 ^ 53 →
  turn_coordinate_to_tile m (tx * sq_tile_size m, ty * sq_tile_size m)
  = Ok (tx, ty).
Proof.
  intros Hs Hx Hy.
  rewrite turn_coordinate_to_tile_exact by done.
  destruct (ceil_div_boundary tx (sq_tile_size m)) as [-> _]; [lia|].
  destruct (ceil_div_boundary ty (sq_tile_size m)) as [-> _]; [lia|].
  done.
Qed.

Lemma tile_pixel_round_trip_witness :
  turn_coordinate_to_tile one_tile
    (2 * sq_tile_size one_tile, 3 * sq_tile_size one_tile)
  = Ok (2, 3).
Proof.
  apply (tile_pixel_round_trip one_tile 2 3);
    first [ reflexivity | split; reflexivity ].
Defined.

(** X15: turn_coordinate_to_tile raises ZeroDivisionError when the tile size
    is 0; for any other tile size and pixel coordinates, all below 2^53 in
    absolute value, it returns the exact ceilings of px / sq_tile_size in
    both axes, also for a negative tile size, where the tile index does not
    grow with the pixel. *)
Theorem turn_coordinate_to_tile_any_size m px py :
  (sq_tile_size m = 0 →
   turn_coordinate_to_tile m (px, py) = Raise ZeroDivisionError)
  ∧ (sq_tile_size m ≠ 0 → Z.abs (sq_tile_size m) < 2 ^ 53 →
     Z.abs px < 2 ^ 53 → Z.abs py < 2 ^ 53 →
     turn_coordinate_to_tile m (px, py)
     = Ok (ceil_div px (sq_tile_size m), ceil_div py (sq_tile_size m)))
  ∧ (sq_tile_size m < 0 →
     ∀ px', px ≤ px' →
       ceil_div px' (sq_tile_size m) ≤ ceil_div px (sq_tile_size m)).
Proof.
  split_and!.
  - intros Hs. unfold turn_coordinate_to_tile, Py.truediv. by rewrite Hs.
  - intros Hs Hbound Hx Hy. unfold turn_coordinate_to_tile.
    simpl fst. simpl snd. rewrite !math_ceil_truediv by lia. done.
  - intros Hs px' Hle. unfold ceil_div.
    assert (∀ a, (- a) / sq_tile_size m = a / (- sq_tile_size m)) as Hopp.
    { intros a. rewrite <- (Z.div_opp_opp a (- sq_tile_size m)) by lia.
      by rewrite Z.opp_involutive. }
    rewrite !Hopp.
    pose proof (Z.div_le_mono px px' (- sq_tile_size m) ltac:(lia) Hle).
    lia.
Qed.

(** ** The day flag from one tick to the next *)

Section NextTick.

Context {MemoryTree AssociativeMemory ScratchRest Env : Type}.
Context {MazeT Personas Perceived Retrieved PlanResult Action : Type}.
Context (perceive :
  MazeT →
  @Collaborator MemoryTree AssociativeMemory ScratchRest Env Perceived).
Context (retrieve :
  Perceived →
  @Collaborator MemoryTree AssociativeMemory ScratchRest Env Retrieved).
Context (plan :
  MazeT → Personas → NewDay → Retrieved →
  @Collaborator MemoryTree AssociativeMemory ScratchRest Env PlanResult).
Context (reflect :
  @Collaborator MemoryTree AssociativeMemory ScratchRest Env unit).
Context (execute :
  MazeT → Personas → PlanResult →
  @Collaborator MemoryTree AssociativeMemory ScratchRest Env Action).



End NextTick.


(** X17: For a persona that has a previous time, move's day flag is False
    exactly when the previous and the new time agree on weekday, month and
    day of the month, and 'New day' otherwise; so the same date gives False,
    and two different dates of one year, or dates less than a week apart,
    give 'New day'. *)
Theorem new_day_flag_characterised a b :
  datetime.valid a = true → datetime.valid b = true →
  (detect_new_day (Some a) b = new_day_False ↔
   datetime.weekday a = datetime.weekday b
   ∧ datetime.month a = datetime.month b
   ∧ datetime.day a = datetime.day b)
  ∧ (detect_new_day (Some a) b ≠ new_day_False →
     detect_new_day (Some a) b = New_day)
  ∧ (datetime.date a = datetime.date b →
     detect_new_day (Some a) b = new_day_False)
  ∧ (datetime.year a = datetime.year b →
     datetime.date a ≠ datetime.date b →
     detect_new_day (Some a) b = New_day)
  ∧ (0 < datetime.toordinal b - datetime.toordinal a < 7 →
     detect_new_day (Some a) b = New_day).
Proof.
  intros Ha Hb. split_and!.
  - rewrite detect_new_day_flag by done. case_decide; split; (done || tauto).
  - rewrite detect_new_day_flag by done. by case_decide.
  - apply detect_new_day_same_date.
  - by apply detect_new_day_same_year.
  - by apply detect_new_day_within_a_week.
Qed.

Lemma new_day_flag_characterised_witness :
  detect_new_day (Some new_year_2017) new_year_2023 = new_day_False.
Proof.
  apply (proj1 (new_day_flag_characterised new_year_2017 new_year_2023
                  eq_refl eq_refl)).
  split_and!; reflexivity.
Defined.

(** ** Loading the block tables and the layers *)

Lemma getitem_first {A} (l : list A) a :
  Py.getitem l 0 = Ok a ↔ head l = Some a.
Proof.
  rewrite getitem_Ok. unfold Py.norm_index. simpl.
  destruct l as [|b l]; simpl.
  - split; [by intros (k & ? & ?)|done].
  - split.
    + by intros (k & [= <-] & Hk).
    + intros [= ->]. by exists 0%nat.
Qed.

Lemma getitem_last {A} (l : list A) a :
  Py.getitem l (-1) = Ok a ↔ last l = Some a.
Proof.
  rewrite getitem_Ok, last_lookup. unfold Py.norm_index. simpl.
  destruct l as [|b l].
  - simpl. split; [by intros (k & ? & ?)|done].
  - destruct (Z.leb_spec (- Z.of_nat (length (b :: l))) (-1)) as [_|Hlt];
      [|simpl in Hlt; lia].
    replace (Z.to_nat (Z.of_nat (length (b :: l)) + -1))
      with (pred (length (b :: l))) by (simpl; lia).
    split.
    + by intros (k & [= <-] & Hk).
    + intros Hlast. eauto.
Qed.

Lemma getitem_empty_row i : Py.getitem ([] : list string) i = Raise IndexError.
Proof. apply getitem_Raise. simpl. lia. Qed.

Lemma load_block_row_Ok (d : gmap string string) row d' :
  (k ← Py.getitem row 0; v ← Py.getitem row (-1); Ok (<[k := v]> d)) = Ok d' →
  ∃ k v, head row = Some k ∧ last row = Some v ∧ d' = <[k := v]> d.
Proof.
  destruct (Py.getitem row 0) as [k|] eqn:Hk; simpl; [|done].
  destruct (Py.getitem row (-1)) as [v|] eqn:Hv; simpl; [|done].
  intros [= <-]. apply getitem_first in Hk. apply getitem_last in Hv. eauto.
Qed.

Lemma load_block_map_lookup rows d :
  load_block_map rows = Ok d →
  ∀ key v,
    d !! key = Some v ↔
    ∃ (i : nat) row,
      rows !! i = Some row ∧ head row = Some key ∧ last row = Some v
      ∧ ∀ (j : nat) row',
          (i < j)%nat → rows !! j = Some row' → head row' ≠ Some key.
Proof.
  set (body := λ (d : gmap string string) (row : list string),
    k ← Py.getitem row 0; v ← Py.getitem row (-1); Ok (<[k := v]> d)).
  intros Hload.
  pose (P := λ (n : nat) (d : gmap string string),
    ∀ key v,
      d !! key = Some v ↔
      ∃ (i : nat) row,
        (i < n)%nat ∧ rows !! i = Some row ∧ head row = Some key
        ∧ last row = Some v
        ∧ ∀ (j : nat) row',
            (i < j < n)%nat → rows !! j = Some row' →
            head row' ≠ Some key).
  assert (P (length rows) d) as HP.
  { apply (for_each_invariant body P rows ∅); [| |done].
    - intros key v. rewrite lookup_empty. split; [done|].
      intros (i & row & Hi & _). lia.
    - intros n row d1 d2 Hrow HP1 Hbody.
      apply load_block_row_Ok in Hbody as (k & v0 & Hhead & Hlast & ->).
      intros key v. destruct (decide (k = key)) as [->|Hne].
      + rewrite lookup_insert_eq. split.
        * intros [= <-]. exists n, row. split_and!; [lia|done..|].
          intros j row' Hj. lia.
        * intros (i & row1 & Hi & Hrow1 & Hhead1 & Hlast1 & Hlater).
          destruct (decide (i = n)) as [->|Hin]; [congruence|].
          exfalso. apply (Hlater n row); [lia|done..].
      + rewrite lookup_insert_ne by done. rewrite (HP1 key v). split.
        * intros (i & row1 & Hi & Hrow1 & Hhead1 & Hlast1 & Hlater).
          exists i, row1. split_and!; [lia|done..|].
          intros j row' Hj Hrow'.
          destruct (decide (j = n)) as [->|Hjn];
            [|apply (Hlater j row'); [lia|done]].
          assert (row' = row) as -> by congruence. congruence.
        * intros (i & row1 & Hi & Hrow1 & Hhead1 & Hlast1 & Hlater).
          assert (i ≠ n) by (intros ->; congruence).
          exists i, row1. split_and!; [lia|done..|].
          intros j row' Hj. apply (Hlater j row'). lia. }
  intros key v. rewrite (HP key v). split.
  + intros (i & row & Hi & Hrow & Hhead & Hlast & Hlater).
    exists i, row. split_and!; [done..|].
    intros j row' Hj Hrow'. apply (Hlater j row'); [|done].
    apply lookup_lt_Some in Hrow'. lia.
  + intros (i & row & Hrow & Hhead & Hlast & Hlater).
    exists i, row. split_and!; [by eapply lookup_lt_Some|done..|].
    intros j row' Hj. apply (Hlater j row'). lia.
Qed.

Lemma load_block_map_is_ok rows :
  is_ok (load_block_map rows) = true ↔ [] ∉ rows.
Proof.
  set (body := λ (d : gmap string string) (row : list string),
    k ← Py.getitem row 0; v ← Py.getitem row (-1); Ok (<[k := v]> d)).
  unfold load_block_map. fold body. split.
  + destruct (Py.for_each body ∅ rows) as [d|] eqn:Hload; [|done].
    intros _ Hin.
    destruct (for_each_Ok_body _ _ _ _ Hload [] Hin) as (d1 & d2 & Hbody).
    unfold body in Hbody. by rewrite getitem_empty_row in Hbody.
  + intros Hnotin.
    destruct (for_each_total body rows ∅) as [d ->]; [|done].
    intros row d1 Hrow. unfold body.
    destruct row as [|c row]; [done|].
    assert (∃ v, last (c :: row) = Some v) as [v Hv].
    { destruct (last (c :: row)) eqn:Hl; [eauto|].
      by apply last_None in Hl. }
    apply getitem_last in Hv.
    assert (Py.getitem (c :: row) 0 = Ok c) as -> by by apply getitem_first.
    simpl. rewrite Hv. simpl. eauto.
Qed.

Lemma load_block_map_Raise rows e :
  load_block_map rows = Raise e → e = IndexError.
Proof.
  set (body := λ (d : gmap string string) (row : list string),
    k ← Py.getitem row 0; v ← Py.getitem row (-1); Ok (<[k := v]> d)).
  unfold load_block_map. fold body. intros Hload.
  eapply for_each_Raise; [|exact Hload].
  intros row d1 e1. unfold body.
  destruct (getitem_cases row 0) as [[k ->]| ->]; simpl; [|congruence].
  destruct (getitem_cases row (-1)) as [[v ->]| ->]; simpl; congruence.
Qed.

(** X18: load_block_map maps the first cell of each row to the last cell of
    that row, a later row overriding an earlier row with the same first
    cell; it succeeds exactly when no row is empty and raises IndexError
    otherwise. *)
Theorem load_block_map_last_row_wins rows :
  (∀ d, load_block_map rows = Ok d →
     ∀ key v,
       d !! key = Some v ↔
       ∃ (i : nat) row,
         rows !! i = Some row ∧ head row = Some key ∧ last row = Some v
         ∧ ∀ (j : nat) row',
             (i < j)%nat → rows !! j = Some row' → head row' ≠ Some key)
  ∧ (is_ok (load_block_map rows) = true ↔ [] ∉ rows)
  ∧ (is_ok (load_block_map rows) = false ↔
     load_block_map rows = Raise IndexError).
Proof.
  split_and!.
  - apply load_block_map_lookup.
  - apply load_block_map_is_ok.
  - destruct (load_block_map rows) as [d|e] eqn:Hload; simpl; [done|].
    by apply load_block_map_Raise in Hload as ->.
Qed.

Lemma Maze_init_is_ok name f :
  is_ok (Maze_init name f) = true ↔
  ∀ layer, layer ∈ layers f → cells f ≤ Z.of_nat (length layer).
Proof.
  assert (is_ok (Maze_init name f) = true ↔ ∃ m, Maze_init name f = Ok m)
    as ->.
  { destruct (Maze_init name f); simpl; split; eauto; try done.
    by intros [m Hm]. }
  rewrite Maze_init_Ok_iff. unfold cells. split.
  - intros Hall layer Hlayer.
    destruct (Z.le_gt_cases (meta_maze_width f) 0) as [Hw|Hw]; [lia|].
    destruct (Z.le_gt_cases (meta_maze_height f) 0) as [Hh|Hh]; [lia|].
    pose proof (Hall (meta_maze_width f - 1) (meta_maze_height f - 1))
      as Hlast.
    rewrite build_tile_Ok_iff in Hlast by nia.
    specialize (Hlast ltac:(lia) ltac:(lia) layer Hlayer). nia.
  - intros Hsizes x y Hx Hy.
    apply build_tile_Ok_iff; [nia|].
    intros layer Hlayer. specialize (Hsizes layer Hlayer). nia.
Qed.

Lemma is_ok_bind {A B} (r : result A) (k : A → result B) :
  is_ok (r ≫= k) = true ↔ ∃ a, r = Ok a ∧ is_ok (k a) = true.
Proof.
  destruct r as [a|e]; simpl.
  - split; [eauto|]. by intros (a' & [= <-] & Hk).
  - split; [done|]. by intros (a' & ? & _).
Qed.

Lemma load_maze_Ok rows layer :
  load_maze rows = Ok layer ↔ head rows = Some layer.
Proof. apply getitem_first. Qed.

Lemma load_files_Raise r e : load_files r = Raise e → e = IndexError.
Proof.
  unfold load_files, load_maze.
  repeat match goal with
  | |- (Py.getitem ?l ?i ≫= _) = _ → _ =>
      destruct (getitem_cases l i) as [[? ->]| ->]; simpl; [|congruence]
  | |- (load_block_map ?rows ≫= _) = _ → _ =>
      let H := fresh in
      destruct (load_block_map rows) eqn:H; simpl;
      [|apply load_block_map_Raise in H; congruence]
  end.
  done.
Qed.

Lemma bind_Ok {A B} (r : result A) (k : A → result B) b :
  r ≫= k = Ok b ↔ ∃ a, r = Ok a ∧ k a = Ok b.
Proof.
  destruct r as [a|e]; simpl.
  - split; [eauto|]. by intros (a' & [= <-] & Hk).
  - split; [done|]. by intros (a' & ? & _).
Qed.

Lemma load_files_Ok r f :
  load_files r = Ok f ↔
  ∃ row world sectors arenas objects spawns collision sector arena object
    spawn,
    head (world_blocks_csv r) = Some row ∧ last row = Some world
    ∧ load_block_map (sector_blocks_csv r) = Ok sectors
    ∧ load_block_map (arena_blocks_csv r) = Ok arenas
    ∧ load_block_map (game_object_blocks_csv r) = Ok objects
    ∧ load_block_map (spawning_location_blocks_csv r) = Ok spawns
    ∧ head (collision_maze_csv r) = Some collision
    ∧ head (sector_maze_csv r) = Some sector
    ∧ head (arena_maze_csv r) = Some arena
    ∧ head (game_object_maze_csv r) = Some object
    ∧ head (spawning_location_maze_csv r) = Some spawn
    ∧ f = mkMazeFiles (rows_maze_width r) (rows_maze_height r)
            (rows_sq_tile_size r) world sectors arenas objects spawns
            collision sector arena object spawn.
Proof.
  unfold load_files, load_maze.
  repeat setoid_rewrite bind_Ok.
  setoid_rewrite getitem_first. setoid_rewrite getitem_last.
  split.
  - intros (row & Hrow & world & Hworld & sectors & Hsectors & arenas
            & Harenas & objects & Hobjects & spawns & Hspawns
            & collision & Hcollision & sector & Hsector & arena
            & Harena & object & Hobject & spawn & Hspawn & [= <-]).
    exists row, world, sectors, arenas, objects, spawns, collision, sector,
      arena, object, spawn. split_and!; done.
  - intros (row & world & sectors & arenas & objects & spawns & collision
            & sector & arena & object & spawn & Hrow & Hworld & Hsectors
            & Harenas & Hobjects & Hspawns & Hcollision & Hsector & Harena
            & Hobject & Hspawn & ->).
    exists row. split; [done|]. exists world. split; [done|].
    exists sectors. split; [done|]. exists arenas. split; [done|].
    exists objects. split; [done|]. exists spawns. split; [done|].
    exists collision. split; [done|]. exists sector. split; [done|].
    exists arena. split; [done|]. exists object. split; [done|].
    exists spawn. split; [done|]. reflexivity.
Qed.

Lemma load_block_map_Ok_iff rows :
  (∃ d, load_block_map rows = Ok d) ↔ [] ∉ rows.
Proof.
  rewrite <- load_block_map_is_ok.
  destruct (load_block_map rows); simpl; split; eauto; try done.
  by intros [d Hd].
Qed.

(** The rows of the town load as the tables and layers of [town_files]. *)
Lemma town_rows_load : load_files town_rows = Ok town_files.
Proof. reflexivity. Qed.

(** X19: Given the rows read from the CSV files, the constructor succeeds
    exactly when world_blocks.csv has a non-empty first row, no row of the
    four block tables is empty, and each of the five layer files has a first
    row of at least max(0, maze_height) * max(0, maze_width) cells; every
    failure is an IndexError. *)
Theorem Maze_init_rows_loads name r :
  (is_ok (Maze_init_rows name r) = true ↔
   (∃ row cell, head (world_blocks_csv r) = Some row ∧ last row = Some cell)
   ∧ ([] ∉ sector_blocks_csv r) ∧ ([] ∉ arena_blocks_csv r)
   ∧ ([] ∉ game_object_blocks_csv r)
   ∧ ([] ∉ spawning_location_blocks_csv r)
   ∧ ∀ csv,
       csv ∈ [collision_maze_csv r; sector_maze_csv r; arena_maze_csv r;
              game_object_maze_csv r; spawning_location_maze_csv r] →
       ∃ layer,
         head csv = Some layer
         ∧ Z.max 0 (rows_maze_height r) * Z.max 0 (rows_maze_width r)
           ≤ Z.of_nat (length layer))
  ∧ (is_ok (Maze_init_rows name r) = false ↔
     Maze_init_rows name r = Raise IndexError).
Proof.
  split.
  - unfold Maze_init_rows. rewrite is_ok_bind.
    setoid_rewrite load_files_Ok. setoid_rewrite Maze_init_is_ok.
    rewrite <- !load_block_map_Ok_iff. split.
    + intros (f & (row & world & sectors & arenas & objects & spawns
                   & collision & sector & arena & object & spawn & Hrow
                   & Hworld & Hsectors & Harenas & Hobjects & Hspawns
                   & Hcollision & Hsector & Harena & Hobject & Hspawn & ->)
              & Hinit).
      unfold layers, cells in Hinit. simpl in Hinit.
      split_and!; [eauto..|].
      intros csv Hcsv.
      repeat (apply elem_of_cons in Hcsv as [->|Hcsv]);
        [eexists; split; [done|]; apply Hinit; by repeat constructor..|].
      by apply elem_of_nil in Hcsv.
    + intros ((row & world & Hrow & Hworld) & [sectors Hs] & [arenas Ha]
              & [objects Ho] & [spawns Hp] & Hmaze).
      destruct (Hmaze (collision_maze_csv r)) as (collision & Hc & Hcl);
        [by repeat constructor|].
      destruct (Hmaze (sector_maze_csv r)) as (sector & Hse & Hsel);
        [by repeat constructor|].
      destruct (Hmaze (arena_maze_csv r)) as (arena & Har & Harl);
        [by repeat constructor|].
      destruct (Hmaze (game_object_maze_csv r)) as (object & Hob & Hobl);
        [by repeat constructor|].
      destruct (Hmaze (spawning_location_maze_csv r))
        as (spawn & Hsp & Hspl); [by repeat constructor|].
      eexists. split.
      * exists row, world, sectors, arenas, objects, spawns, collision,
          sector, arena, object, spawn. split_and!; done.
      * unfold layers, cells. simpl. intros layer Hlayer.
        repeat (apply elem_of_cons in Hlayer as [->|Hlayer]); [done..|].
        by apply elem_of_nil in Hlayer.
  - destruct (Maze_init_rows name r) as [m|e] eqn:Hload; simpl; [done|].
    split; [|done]. intros _. f_equal.
    unfold Maze_init_rows in Hload.
    destruct (load_files r) as [f|e'] eqn:Hf; simpl in Hload.
    + by apply Maze_init_Raise in Hload.
    + injection Hload as <-. by apply load_files_Raise in Hf.
Qed.

(** ** Reading one column of a csv file *)

Lemma read_file_to_set_elem rows col s :
  read_file_to_set rows col = Ok s →
  ∀ cell,
    cell ∈ s ↔
    ∃ row, row ∈ rows ∧ row ≠ [] ∧ Py.getitem row col = Ok cell.
Proof.
  intros Hread.
  pose (P := λ (n : nat) (s : gset string),
    ∀ cell,
      cell ∈ s ↔
      ∃ (i : nat) row,
        (i < n)%nat ∧ rows !! i = Some row ∧ row ≠ []
        ∧ Py.getitem row col = Ok cell).
  assert (P (length rows) s) as HP.
  { eapply (for_each_invariant _ P rows ∅); [| |exact Hread].
    - intros cell. split; [by intros ?%elem_of_empty|].
      intros (i & row & Hi & _). lia.
    - intros n row s1 s2 Hrow HP1 Hbody cell.
      destruct row as [|c row].
      + injection Hbody as <-. rewrite (HP1 cell). split.
        * intros (i & row & Hi & Hrest). exists i, row. split; [lia|done].
        * intros (i & row & Hi & Hrow' & Hne & Hget).
          destruct (decide (i = n)) as [->|Hin]; [congruence|].
          exists i, row. split; [lia|done].
      + destruct (Py.getitem (c :: row) col) as [cell'|] eqn:Hget;
          simpl in Hbody; [|done].
        injection Hbody as <-.
        rewrite elem_of_union, elem_of_singleton, (HP1 cell). split.
        * intros [(i & row' & Hi & Hrest)| ->].
          -- exists i, row'. split; [lia|done].
          -- exists n, (c :: row). split_and!; [lia|done..].
        * intros (i & row' & Hi & Hrow' & Hne & Hget').
          destruct (decide (i = n)) as [->|Hin].
          -- right. congruence.
          -- left. exists i, row'. split; [lia|done]. }
  intros cell. rewrite (HP cell). split.
  - intros (i & row & _ & Hrow & Hrest). exists row.
    split; [by eapply list_elem_of_lookup_2|done].
  - intros (row & (i & Hrow)%list_elem_of_lookup_1 & Hrest).
    exists i, row. split; [by eapply lookup_lt_Some|done].
Qed.

Lemma read_file_to_set_is_ok rows col :
  is_ok (read_file_to_set rows col) = true ↔
  ∀ row, row ∈ rows → row ≠ [] →
         - Z.of_nat (length row) ≤ col < Z.of_nat (length row).
Proof.
  unfold read_file_to_set. split.
  - destruct (Py.for_each _ ∅ rows) as [s|] eqn:Hread; [|done].
    intros _ row Hin Hne.
    destruct (for_each_Ok_body _ _ _ _ Hread row Hin) as (s1 & s2 & Hbody).
    destruct row as [|c row]; [done|].
    destruct (Py.getitem (c :: row) col) as [cell|e] eqn:Hget;
      simpl in Hbody; [|done].
    destruct (decide (- Z.of_nat (length (c :: row)) ≤ col
                      < Z.of_nat (length (c :: row)))) as [|Hout]; [done|].
    apply getitem_Raise in Hout. congruence.
  - intros Hcol.
    edestruct (for_each_total
                 (λ (acc : gset string) (row : list string),
                    match row with
                    | [] => Ok acc
                    | _ :: _ =>
                        cell ← Py.getitem row col; Ok (acc ∪ {[ cell ]})
                    end) rows ∅) as [s Hs]; [|by rewrite Hs].
    intros row s1 Hrow. destruct row as [|c row]; [eauto|].
    destruct (getitem_cases (c :: row) col) as [[cell ->]|Hraise];
      [simpl; eauto|].
    apply getitem_Raise in Hraise. by destruct Hraise; apply Hcol.
Qed.

Lemma read_file_to_set_Raise rows col e :
  read_file_to_set rows col = Raise e → e = IndexError.
Proof.
  unfold read_file_to_set. intros Hread.
  eapply for_each_Raise; [|exact Hread].
  intros row s1 e1. destruct row as [|c row]; [done|].
  destruct (getitem_cases (c :: row) col) as [[cell ->]| ->]; simpl;
    congruence.
Qed.

(** X20: read_file_to_set returns the set of the cells at the given column
    of the non-empty rows, skipping empty rows; it succeeds exactly when the
    column is a valid index of every non-empty row, which is always so for
    the default column 0, and raises IndexError otherwise. *)
Theorem read_file_to_set_cells rows col :
  (∀ s, read_file_to_set rows col = Ok s →
     ∀ cell,
       cell ∈ s ↔
       ∃ row, row ∈ rows ∧ row ≠ [] ∧ Py.getitem row col = Ok cell)
  ∧ (is_ok (read_file_to_set rows col) = true ↔
     ∀ row, row ∈ rows → row ≠ [] →
            - Z.of_nat (length row) ≤ col < Z.of_nat (length row))
  ∧ is_ok (read_file_to_set rows 0) = true
  ∧ (is_ok (read_file_to_set rows col) = false ↔
     read_file_to_set rows col = Raise IndexError).
Proof.
  split_and!.
  - apply read_file_to_set_elem.
  - apply read_file_to_set_is_ok.
  - apply read_file_to_set_is_ok. intros row _ Hne.
    destruct row as [|c row]; [done|]. simpl. lia.
  - destruct (read_file_to_set rows col) as [s|e] eqn:Hread; simpl; [done|].
    split; [|done]. intros _. f_equal.
    by apply read_file_to_set_Raise in Hread.
Qed.
